(** * Record sessions of the lb ORM: [Insert] and [Find]

    A shallow embedding of [orm/session/record.go].  The two operations are
    written over a small model of Go values and of the part of package
    [reflect] that [Find] calls, over the clause store and the schema registry
    they drive, and over an executor that answers [Exec] and [QueryRows] and
    whose calls are logged, so that statements issued and cursor releases can
    be counted.

    Beside the record session the file embeds the options of package
    hconfig ([extrpkg/lbconfig/options.go]), the hints and the logger of
    package log ([log/log.go]) and the doc functions of the README
    generator. *)

From Stdlib Require Import ZArith.
From stdpp Require Import gmap strings list fin_maps.

Local Open Scope string_scope.
Local Open Scope list_scope.
Set Warnings "-register-all".

(** ** Go values *)

(** Column kinds a struct field can have. *)
Inductive Kind := KInt | KString | KBool.

(** One declared field of a struct type: its name, its kind, and whether a
    tag excludes it from the mapping. *)
Record FieldDecl := {
  fd_name : string;
  fd_kind : Kind;
  fd_ignored : bool
}.

(** A named struct type with its fields in declaration order. *)
Record StructDecl := {
  sd_name : string;
  sd_fields : list FieldDecl
}.

Inductive GoType :=
| TScalar (k : Kind)
| TInterface
| TStruct (sd : StructDecl)
| TSlice (elem : GoType)
| TPtr (elem : GoType)
| TArray (len : nat) (elem : GoType)
| TMap (key elem : GoType)
| TChan (elem : GoType).

(** A value held in an [interface{}].  A slice is [None] when it is nil and
    [Some items] otherwise; a pointer is [None] when it is nil and otherwise
    carries the current value of the variable it points to; an array holds
    its elements; a map is [None] when it is nil and otherwise holds its
    entries; a channel is [None] when it is nil. *)
Inductive GoValue :=
| VNil
| VInt (z : Z)
| VString (s : string)
| VBool (b : bool)
| VStruct (sd : StructDecl) (fields : list GoValue)
| VSlice (elem : GoType) (items : option (list GoValue))
| VPtr (elem : GoType) (target : option GoValue)
| VArray (elem : GoType) (items : list GoValue)
| VMap (key elem : GoType) (entries : option (list (GoValue * GoValue)))
| VChan (elem : GoType) (channel : option nat).

#[global] Instance Kind_eq_dec : EqDecision Kind.
Proof. solve_decision. Defined.

#[global] Instance FieldDecl_eq_dec : EqDecision FieldDecl.
Proof. solve_decision. Defined.

#[global] Instance StructDecl_eq_dec : EqDecision StructDecl.
Proof. solve_decision. Defined.

#[global] Instance GoType_eq_dec : EqDecision GoType.
Proof. solve_decision. Defined.

#[global] Instance Kind_countable : Countable Kind.
Proof.
  refine (inj_countable'
            (fun k => match k with KInt => 0 | KString => 1 | KBool => 2 end)
            (fun n => match n with 0 => KInt | 1 => KString | _ => KBool end) _).
  by intros [].
Defined.

#[global] Instance FieldDecl_countable : Countable FieldDecl.
Proof.
  refine (inj_countable'
            (fun f => (fd_name f, fd_kind f, fd_ignored f))
            (fun t => {| fd_name := t.1.1; fd_kind := t.1.2; fd_ignored := t.2 |}) _).
  by intros [].
Defined.

#[global] Instance StructDecl_countable : Countable StructDecl.
Proof.
  refine (inj_countable'
            (fun d => (sd_name d, sd_fields d))
            (fun t => {| sd_name := t.1; sd_fields := t.2 |}) _).
  by intros [].
Defined.

(** Go exports an identifier when its first character is an upper-case
    letter. *)
Definition is_exported (name : string) : bool :=
  match name with
  | String c _ => Nat.leb 65 (Ascii.nat_of_ascii c) && Nat.leb (Ascii.nat_of_ascii c) 90
  | EmptyString => false
  end.

Definition zero_kind (k : Kind) : GoValue :=
  match k with
  | KInt => VInt 0
  | KString => VString ""
  | KBool => VBool false
  end.

(** The zero value of a type. *)
Fixpoint zero (t : GoType) : GoValue :=
  match t with
  | TScalar k => zero_kind k
  | TInterface => VNil
  | TStruct sd => VStruct sd (map (fun f => zero_kind (fd_kind f)) (sd_fields sd))
  | TSlice e => VSlice e None
  | TPtr e => VPtr e None
  | TArray n e => VArray e (replicate n (zero e))
  | TMap k e => VMap k e None
  | TChan e => VChan e None
  end.

(** The dynamic type of a non-nil interface value. *)
Definition type_of (v : GoValue) : GoType :=
  match v with
  | VNil => TInterface
  | VInt _ => TScalar KInt
  | VString _ => TScalar KString
  | VBool _ => TScalar KBool
  | VStruct sd _ => TStruct sd
  | VSlice e _ => TSlice e
  | VPtr e _ => TPtr e
  | VArray e items => TArray (length items) e
  | VMap k e _ => TMap k e
  | VChan e _ => TChan e
  end.

(** The name of a type's kind, as [Kind.String] prints it. *)
Definition kind_name (t : GoType) : string :=
  match t with
  | TScalar KInt => "int"
  | TScalar KString => "string"
  | TScalar KBool => "bool"
  | TInterface => "interface"
  | TStruct _ => "struct"
  | TSlice _ => "slice"
  | TPtr _ => "ptr"
  | TArray _ _ => "array"
  | TMap _ _ => "map"
  | TChan _ => "chan"
  end.

(** The name of a type without elements, as [Type.String] prints it; of a
    struct type the model has the name only, which Go prints after the
    name of its package. *)
Definition type_name (t : GoType) : string :=
  match t with
  | TScalar _ => kind_name t
  | TInterface => "interface {}"
  | TStruct sd => sd_name sd
  | _ => kind_name t
  end.

(** The elements of a slice value; a nil slice has none. *)
Definition items_of (v : GoValue) : list GoValue :=
  match v with
  | VSlice _ (Some l) => l
  | _ => []
  end.

(** A call either completes with a result or panics. *)
Inductive Res (A : Type) :=
| Ok (a : A)
| Panic (msg : string).
Arguments Ok {A} a.
Arguments Panic {A} msg.

#[global] Instance Res_bind : MBind Res :=
  fun A B (k : A -> Res B) (r : Res A) =>
    match r with
    | Ok a => k a
    | Panic m => Panic m
    end.

(** ** Package reflect, as far as [Find] uses it *)

Module reflect.

(** A valid [reflect.Value]: the value it holds, its static type, whether
    it is addressable, and whether it was reached through an unexported
    field.  The zero [Value] is [None]. *)
Record Value := {
  v_val : GoValue;
  v_typ : GoType;
  v_addr : bool;
  v_ro : bool
}.

Definition ValueOf (i : GoValue) : option Value :=
  match i with
  | VNil => None
  | _ => Some {| v_val := i; v_typ := type_of i; v_addr := false; v_ro := false |}
  end.

(** [Indirect] follows a pointer and returns anything else unchanged; a nil
    pointer gives the zero [Value]. *)
Definition Indirect (v : option Value) : option Value :=
  match v with
  | Some {| v_val := VPtr e tgt |} =>
      match tgt with
      | Some x => Some {| v_val := x; v_typ := e; v_addr := true; v_ro := false |}
      | None => None
      end
  | _ => v
  end.

Definition Type_ (v : Value) : GoType := v_typ v.

(** What [Type] panics with on the zero [Value]. *)
Definition zero_Value_Type : string :=
  "reflect: call of reflect.Value.Type on zero Value".

(** [Type.Elem] gives the element type of an array, a channel, a map, a
    pointer or a slice, and panics on every other type, naming it. *)
Definition Elem (t : GoType) : Res GoType :=
  match t with
  | TSlice e | TPtr e | TArray _ e | TMap _ e | TChan e => Ok e
  | TScalar _ | TInterface | TStruct _ =>
      Panic ("reflect: Elem of invalid type " +:+ type_name t)
  end.

(** [reflect.New(t).Elem()]: a fresh addressable variable of type [t]
    holding its zero value. *)
Definition NewElem (t : GoType) : Value :=
  {| v_val := zero t; v_typ := t; v_addr := true; v_ro := false |}.

Definition Interface (v : Value) : Res GoValue :=
  if v_ro v
  then Panic "reflect.Value.Interface: cannot return value obtained from unexported field or method"
  else Ok (v_val v).

(** Position of the first field called [name]. *)
Fixpoint field_index (name : string) (fs : list FieldDecl) : option (nat * FieldDecl) :=
  match fs with
  | [] => None
  | f :: rest =>
      if decide (fd_name f = name) then Some (0, f)
      else match field_index name rest with
           | Some (i, g) => Some (S i, g)
           | None => None
           end
  end.

(** A [Value] standing for a field of a struct variable: the position of
    the field in the struct, with the flags [FieldByName] gives it. *)
Record FieldValue := {
  fv_index : nat;
  fv_kind : Kind;
  fv_addr : bool;
  fv_ro : bool
}.

(** [FieldByName] panics on anything but a struct and returns the zero
    [Value] when the struct has no such field. *)
Definition FieldByName (v : Value) (name : string) : Res (option FieldValue) :=
  match v_typ v with
  | TStruct sd =>
      match field_index name (sd_fields sd) with
      | Some (i, f) =>
          Ok (Some {| fv_index := i; fv_kind := fd_kind f; fv_addr := v_addr v;
                      fv_ro := v_ro v || negb (is_exported name) |})
      | None => Ok None
      end
  | t => Panic ("reflect: call of reflect.Value.FieldByName on " +:+ kind_name t +:+ " Value")
  end.

(** A pointer to a field of the struct being filled, as handed to [Scan]. *)
Record FieldPtr := {
  fp_index : nat;
  fp_kind : Kind
}.

(** [Addr] needs an addressable [Value]; the zero [Value] is not. *)
Definition Addr (f : option FieldValue) : Res FieldValue :=
  match f with
  | Some fv =>
      if fv_addr fv then Ok fv
      else Panic "reflect.Value.Addr of unaddressable value"
  | None => Panic "reflect.Value.Addr of unaddressable value"
  end.

Definition AddrInterface (fv : FieldValue) : Res FieldPtr :=
  if fv_ro fv
  then Panic "reflect.Value.Interface: cannot return value obtained from unexported field or method"
  else Ok {| fp_index := fv_index fv; fp_kind := fv_kind fv |}.

(** [reflect.Append(s, x)]: [s] must be a slice; the result is never nil. *)
Definition Append (s : Value) (x : GoValue) : Res GoValue :=
  match v_typ s, v_val s with
  | TSlice _, VSlice e items => Ok (VSlice e (Some (default [] items ++ [x])))
  | t, _ => Panic ("reflect: call of reflect.Append on " +:+ kind_name t +:+ " Value")
  end.

(** [Value.Set]: the receiver must be addressable and not read-only. *)
Definition Set_ (dst : Value) (x : GoValue) : Res Value :=
  if v_addr dst && negb (v_ro dst)
  then Ok {| v_val := x; v_typ := v_typ dst; v_addr := v_addr dst; v_ro := v_ro dst |}
  else Panic "reflect: reflect.Value.Set using unaddressable value".

End reflect.

(** ** Errors *)

Inductive Error :=
| InvalidModel
| ExecutorError (msg : string)
| ScanError (msg : string).

(** ** Package clause *)

Module clause.

Inductive Type_ :=
| INSERT | VALUES | SELECT | WHERE | ORDERBY | LIMIT | UPDATE | DELETE.

#[global] Instance Type_eq_dec : EqDecision Type_.
Proof. solve_decision. Defined.

#[global] Instance Type_countable : Countable Type_.
Proof.
  refine (inj_countable'
            (fun k => match k with
                      | INSERT => 0 | VALUES => 1 | SELECT => 2 | WHERE => 3
                      | ORDERBY => 4 | LIMIT => 5 | UPDATE => 6 | DELETE => 7
                      end)
            (fun n => match n with
                      | 0 => INSERT | 1 => VALUES | 2 => SELECT | 3 => WHERE
                      | 4 => ORDERBY | 5 => LIMIT | 6 => UPDATE | _ => DELETE
                      end) _).
  by intros [].
Defined.

(** A rendered fragment with its parameter values. *)
Record Fragment := {
  sql : string;
  vars : list GoValue
}.

(** The driver-specific part of fragment rendering: the text of a fragment
    of each kind, and the parameters bound by the kinds that [Insert] and
    [Find] do not set themselves. *)
Record Generators := {
  render : Type_ -> list GoValue -> string;
  bind : Type_ -> list GoValue -> list GoValue
}.

(** Modelled from the spec: the fragment generators of package clause are
    not part of the sources at hand.  INSERT and SELECT take a table name
    and a column list, which go into the text and bind nothing; VALUES
    takes one value list per record and binds the flattened accumulator,
    records in argument order and each record's values in their own
    order. *)
Definition generate (g : Generators) (k : Type_) (args : list GoValue) : Fragment :=
  {| sql := render g k args;
     vars := match k with
             | INSERT | SELECT => []
             | VALUES => flat_map items_of args
             | _ => bind g k args
             end |}.

(** The clause set of one session: at most one fragment per kind. *)
Abbreviation Clause := (gmap Type_ Fragment).

(** Modelled from the spec: [Set] of package clause is not part of the
    sources at hand.  It stores the rendered fragment and its parameters
    under the kind, overwriting any prior fragment of that kind. *)
Definition Set_ (g : Generators) (c : Clause) (k : Type_) (args : list GoValue) : Clause :=
  <[k := generate g k args]> c.

(** Modelled from the spec: [Build] of package clause is not part of the
    sources at hand.  It walks the requested kinds in argument order,
    skips the kinds that were never set, and appends each stored fragment
    and its parameters to what it has collected so far. *)
Definition Build (c : Clause) (kinds : list Type_) : string * list GoValue :=
  fold_left
    (fun acc k =>
       match c !! k with
       | Some f => (acc.1 +:+ sql f, acc.2 ++ vars f)
       | None => acc
       end)
    kinds ("", []).

End clause.

(** ** Package schema *)

Module schema.

(** Modelled from the spec: the field descriptor of package schema, which is
    not part of the sources at hand. *)
Record Field := {
  FieldName : string;
  ColumnName : string
}.

(** Modelled from the spec: the table schema of package schema, which is not
    part of the sources at hand.  [Name] and [FieldNames] are the two fields
    [Insert] and [Find] read: the table name, and the column list they hand
    to the clause set and [Find] uses to look fields up. *)
Record Schema := {
  Name : string;
  Fields : list Field;
  FieldNames : list string
}.

(** Modelled from the spec: a field is mapped when it is exported and not
    ignored. *)
Definition mappable (f : FieldDecl) : bool :=
  is_exported (fd_name f) && negb (fd_ignored f).

(** Modelled from the spec: schema derivation is not part of the sources
    at hand.  One descriptor per exported field that is not ignored, in
    declaration order; the table is named after the type and a column
    after its field. *)
Definition Parse (sd : StructDecl) : Schema :=
  let fs := List.filter mappable (sd_fields sd) in
  {| Name := sd_name sd;
     Fields := map (fun f => {| FieldName := fd_name f; ColumnName := fd_name f |}) fs;
     FieldNames := map fd_name fs |}.

(** The struct type behind a value: the value's own type, or the type a
    pointer points to. *)
Definition struct_of (t : GoType) : option StructDecl :=
  match t with
  | TStruct sd => Some sd
  | TPtr (TStruct sd) => Some sd
  | _ => None
  end.

(** Modelled from the spec: the registry, which is not part of the sources at
    hand.  It holds the schemas derived so far, keyed by type, and counts the
    derivations performed. *)
Record Registry := {
  cache : gmap StructDecl Schema;
  derived : nat
}.

(** The value of the field called [name] of a struct value. *)
Definition field_value (v : GoValue) (name : string) : option GoValue :=
  match v with
  | VStruct sd fs =>
      match reflect.field_index name (sd_fields sd) with
      | Some (i, _) => fs !! i
      | None => None
      end
  | _ => None
  end.

Definition indirect (v : GoValue) : GoValue :=
  match v with
  | VPtr _ (Some x) => x
  | _ => v
  end.

(** Modelled from the spec: [RecordValues] is not part of the sources at
    hand.  It reads the value's fields in column order. *)
Definition RecordValues (t : Schema) (v : GoValue) : list GoValue :=
  omap (field_value (indirect v)) (FieldNames t).

(** Modelled from the spec: [Model] is not part of the sources at hand.
    The value must be a struct or a pointer to one, with at least one
    mappable field, or the call fails with [InvalidModel].  The first call
    for a type derives its schema and caches it; later calls for that type
    return the cached schema without deriving again. *)
Definition Model (r : Registry) (value : GoValue) : Registry * (Error + Schema) :=
  match struct_of (type_of value) with
  | None => (r, inl InvalidModel)
  | Some sd =>
      match cache r !! sd with
      | Some t => (r, inr t)
      | None =>
          let t := Parse sd in
          match Fields t with
          | [] => (r, inl InvalidModel)
          | _ :: _ => ({| cache := <[sd := t]> (cache r); derived := S (derived r) |}, inr t)
          end
      end
  end.

End schema.

(** ** Package session *)

Module session.

(** *** The executor and its row cursor *)

(** A row of a result set: its column values, or a row on which [Scan] is
    made to fail. *)
Inductive Row :=
| RowData (cols : list GoValue)
| RowFail (e : Error).

(** A cursor: the rows not yet delivered and the answer [Close] will give. *)
Record Rows := {
  pending : list Row;
  close_err : option Error
}.

Inductive ExecReply :=
| ExecFailed (e : Error)
| ExecDone (rowsAffected : Z) (err : option Error).

Inductive QueryReply :=
| QueryFailed (e : Error)
| QueryOpened (rows : Rows).

(** Modelled from the spec: [Raw], [Exec] and [QueryRows] are not part of the
    sources at hand.  An executor answers a statement and its parameters
    with an error or a result ([Exec]), or with an error or a cursor
    ([QueryRows]); what it answers is left open. *)
Record Executor := {
  Exec : string -> list GoValue -> ExecReply;
  QueryRows : string -> list GoValue -> QueryReply
}.

(** What the executor and the cursor see of a session. *)
Inductive Event :=
| EvExec (sql : string) (vars : list GoValue)
| EvQuery (sql : string) (vars : list GoValue)
| EvNext
| EvScan
| EvClose.

Definition is_close (e : Event) : bool :=
  match e with EvClose => true | _ => false end.

Definition is_scan (e : Event) : bool :=
  match e with EvScan => true | _ => false end.

Definition closes (evs : list Event) : nat := length (List.filter is_close evs).

Definition scans (evs : list Event) : nat := length (List.filter is_scan evs).

Definition assignable (k : Kind) (v : GoValue) : bool :=
  match k, v with
  | KInt, VInt _ | KString, VString _ | KBool, VBool _ => true
  | _, _ => false
  end.

(** Writing through a field pointer. *)
Definition store (dest : GoValue) (p : reflect.FieldPtr) (v : GoValue) : GoValue :=
  match dest with
  | VStruct sd fs => VStruct sd (<[reflect.fp_index p := v]> fs)
  | _ => dest
  end.

Fixpoint scan_cols (cols : list GoValue) (targets : list reflect.FieldPtr)
         (dest : GoValue) : Error + GoValue :=
  match cols, targets with
  | [], [] => inr dest
  | c :: cs, p :: ps =>
      if assignable (reflect.fp_kind p) c
      then scan_cols cs ps (store dest p c)
      else inl (ScanError "sql: Scan error: unsupported conversion")
  | _, _ => inl (ScanError "sql: wrong number of destination arguments in Scan")
  end.

(** [rows.Scan(targets...)]: copies the columns of the current row through
    the targets, one column per target in order, and fails when the counts
    or the kinds do not match.  The result is the struct the targets point
    into, after the writes. *)
Definition Scan (row : Row) (targets : list reflect.FieldPtr) (dest : GoValue)
  : Error + GoValue :=
  match row with
  | RowFail e => inl e
  | RowData cols => scan_cols cols targets dest
  end.

(** *** Sessions *)

Record Session := {
  clause : gmap clause.Type_ clause.Fragment;
  registry : schema.Registry;
  calls : list Event
}.

Definition with_clause (s : Session) (c : gmap clause.Type_ clause.Fragment) : Session :=
  {| clause := c; registry := registry s; calls := calls s |}.

Definition with_calls (s : Session) (evs : list Event) : Session :=
  {| clause := clause s; registry := registry s; calls := calls s ++ evs |}.

(** Modelled from the spec: [s.Model(value).Table], the schema of [value]
    looked up in the registry, which the session carries along. *)
Definition Model (s : Session) (value : GoValue) : Session * (Error + schema.Schema) :=
  let '(r, t) := schema.Model (registry s) value in
  ({| clause := clause s; registry := r; calls := calls s |}, t).

(** How a call ends.  [ModelFailed] stands for a failed schema derivation:
    the call sites do not test for it, and how it surfaces is decided by
    code that is not part of the sources at hand. *)
Inductive Outcome (A : Type) :=
| Returned (a : A)
| Panicked (msg : string)
| ModelFailed (e : Error).
Arguments Returned {A} a.
Arguments Panicked {A} msg.
Arguments ModelFailed {A} e.

Definition strings (l : list string) : GoValue :=
  VSlice (TScalar KString) (Some (map VString l)).

(** *** Insert *)

(** The loop of [Insert] over its arguments (record.go, lines 13 to 17):
    the schema of the value, [Set] of INSERT with its table name and
    columns, and the value's record appended to [recordValues]. *)
Fixpoint insert_values (g : clause.Generators) (values : list GoValue) (s : Session)
         (recordValues : list GoValue) : Error * Session + Session * list GoValue :=
  match values with
  | [] => inr (s, recordValues)
  | value :: rest =>
      match Model s value with
      | (s1, inl e) => inl (e, s1)
      | (s1, inr table) =>
          let s2 := with_clause s1
                      (clause.Set_ g (clause s1) clause.INSERT
                         [VString (schema.Name table); strings (schema.FieldNames table)]) in
          insert_values g rest s2
            (recordValues ++ [VSlice TInterface (Some (schema.RecordValues table value))])
      end
  end.

(** [Insert] (record.go, lines 11 to 27): after the loop, [Set] of VALUES
    with the records, [Build] of INSERT and VALUES, one [Exec]; an error of
    [Exec] is returned with a count of 0, and otherwise whatever
    [RowsAffected] gives. *)
Definition Insert (g : clause.Generators) (ex : Executor) (values : list GoValue)
           (s : Session) : Outcome (Z * option Error) * Session :=
  match insert_values g values s [] with
  | inl (e, s1) => (ModelFailed e, s1)
  | inr (s1, recordValues) =>
      let s2 := with_clause s1 (clause.Set_ g (clause s1) clause.VALUES recordValues) in
      let '(sql, vars) := clause.Build (clause s2) [clause.INSERT; clause.VALUES] in
      let s3 := with_calls s2 [EvExec sql vars] in
      match Exec ex sql vars with
      | ExecFailed err => (Returned (0%Z, Some err), s3)
      | ExecDone n err => (Returned (n, err), s3)
      end
  end.

(** *** Find *)

(** [dest.FieldByName(name).Addr().Interface()] for each name in turn. *)
Fixpoint field_ptrs (dest : reflect.Value) (names : list string)
  : Res (list reflect.FieldPtr) :=
  match names with
  | [] => Ok []
  | name :: rest =>
      f ← reflect.FieldByName dest name;
      a ← reflect.Addr f;
      p ← reflect.AddrInterface a;
      ps ← field_ptrs dest rest;
      Ok (p :: ps)
  end.

(** The body of the loop of [Find] up to [Scan]: a fresh element, the
    pointers to its fields in the order of [names], and the row scanned
    through them. *)
Definition scan_row (destType : GoType) (names : list string) (row : Row)
  : Res (Error + GoValue) :=
  let dest := reflect.NewElem destType in
  valueList ← field_ptrs dest names;
  Ok (Scan row valueList (reflect.v_val dest)).

(** The loop of [Find] over the cursor (record.go, lines 47 to 58).  While
    [Next] delivers a row: a scan error is returned at once, and a scanned
    element is appended to the destination slice; when [Next] delivers no
    more, the result of [Close] is returned.  The function returns how the
    loop ended, the destination slice as the loop left it, and the cursor
    calls made. *)
Fixpoint find_rows (destType : GoType) (names : list string) (rows : list Row)
         (close : option Error) (destSlice : reflect.Value)
  : Outcome (option Error) * reflect.Value * list Event :=
  match rows with
  | [] => (Returned close, destSlice, [EvNext; EvClose])
  | row :: rest =>
      match scan_row destType names row with
      | Panic m => (Panicked m, destSlice, [EvNext])
      | Ok (inl sErr) => (Returned (Some sErr), destSlice, [EvNext; EvScan])
      | Ok (inr dest) =>
          match (a ← reflect.Append destSlice dest; reflect.Set_ destSlice a) with
          | Panic m => (Panicked m, destSlice, [EvNext; EvScan])
          | Ok destSlice' =>
              let '(o, d, evs) := find_rows destType names rest close destSlice' in
              (o, d, EvNext :: EvScan :: evs)
          end
      end
  end.

(** The result of [Find]: how it ended, the session afterwards, and the
    value then held by the variable behind [reflect.Indirect(values)]
    (nothing when that is the zero [Value]). *)
Record FindResult := {
  outcome : Outcome (option Error);
  after : Session;
  destination : option GoValue
}.

(** [Find] (record.go, lines 35 to 59): the destination slice behind
    [values], its element type, the schema of the zero value of that type,
    [Set] of SELECT, [Build] of SELECT, WHERE, ORDERBY and LIMIT, one
    [QueryRows], whose error is returned, and the loop over the cursor. *)
Definition Find (g : clause.Generators) (ex : Executor) (values : GoValue)
           (s : Session) : FindResult :=
  let destSlice := reflect.Indirect (reflect.ValueOf values) in
  match destSlice with
  | None =>
      {| outcome := Panicked reflect.zero_Value_Type; after := s; destination := None |}
  | Some ds =>
      match (destType ← reflect.Elem (reflect.Type_ ds);
             z ← reflect.Interface (reflect.NewElem destType);
             Ok (destType, z)) with
      | Panic m =>
          {| outcome := Panicked m; after := s; destination := Some (reflect.v_val ds) |}
      | Ok (destType, z) =>
          match Model s z with
          | (s1, inl e) =>
              {| outcome := ModelFailed e; after := s1;
                 destination := Some (reflect.v_val ds) |}
          | (s1, inr table) =>
              let s2 := with_clause s1
                          (clause.Set_ g (clause s1) clause.SELECT
                             [VString (schema.Name table);
                              strings (schema.FieldNames table)]) in
              let '(sql, vars) :=
                clause.Build (clause s2)
                  [clause.SELECT; clause.WHERE; clause.ORDERBY; clause.LIMIT] in
              let s3 := with_calls s2 [EvQuery sql vars] in
              match QueryRows ex sql vars with
              | QueryFailed err =>
                  {| outcome := Returned (Some err); after := s3;
                     destination := Some (reflect.v_val ds) |}
              | QueryOpened rows =>
                  let '(o, d, evs) :=
                    find_rows destType (schema.FieldNames table) (pending rows)
                      (close_err rows) ds in
                  {| outcome := o; after := with_calls s3 evs;
                     destination := Some (reflect.v_val d) |}
              end
          end
      end
  end.

End session.

(** ** Package hconfig: options *)

Module hconfig.

Section options.

(** The non-nil values of the interface [hconf.DataSource]; the nil
    interface is [None]. *)
Variable DataSource : Type.

Record options := {
  dataSource : option DataSource;
  useLocal : bool
}.

(** An [Option] is a function on the options being built; as a Go function
    value it may be nil, which is [None]. *)
Definition Option := option (options -> options).

Definition WithDataSource (d : option DataSource) : Option :=
  Some (fun opt => {| dataSource := d; useLocal := useLocal opt |}).

Definition WithUseLocal : Option :=
  Some (fun opt => {| dataSource := dataSource opt; useLocal := true |}).

(** The loop of [newOptions]: each option is called on the options in turn;
    calling a nil function panics. *)
Fixpoint apply_options (opts : list Option) (o : options) : Res options :=
  match opts with
  | [] => Ok o
  | opt :: rest =>
      match opt with
      | Some f => apply_options rest (f o)
      | None => Panic "invalid memory address or nil pointer dereference"
      end
  end.

(** [newOptions] (options.go, lines 27 to 39): the options start with no
    data source and [useLocal] off; once every option was applied, a nil
    data source is an error. *)
Definition newOptions (opts : list Option) : Res (string + options) :=
  o ← apply_options opts {| dataSource := None; useLocal := false |};
  match dataSource o with
  | None => Ok (inl "dataSource is nil")
  | Some _ => Ok (inr o)
  end.

End options.

Arguments dataSource {DataSource} _.
Arguments useLocal {DataSource} _.
Arguments WithDataSource {DataSource} d.
Arguments WithUseLocal {DataSource}.
Arguments apply_options {DataSource} opts o.
Arguments newOptions {DataSource} opts.

End hconfig.

(** ** Package log *)

Module log.

(** *** The hint of each goroutine *)

(** [SetLogHint] (log.go, lines 27 to 36) on the goroutine [i]: the map
    [logCtx] loses the entry of [i] when the hint is empty and otherwise
    maps [i] to the hint. *)
Definition SetLogHint (i : Z) (hint : string) (logCtx : gmap Z string) : gmap Z string :=
  if decide (hint = "") then delete i logCtx else <[i := hint]> logCtx.

(** [getLogHint] (lines 38 to 44): the entry of [i], or the empty string
    that Go gives for a missing key. *)
Definition getLogHint (i : Z) (logCtx : gmap Z string) : string :=
  default "" (logCtx !! i).

(** *** The logger *)

Section logger.

(** The state of the log writer, and [fmt.Sprintf]. *)
Variable W : Type.
Variable Sprintf : string -> list GoValue -> string.

(** The interface [lb_interface.LogWriter]: each call answers with an error
    or nil and leaves the writer in a new state. *)
Record LogWriter := {
  Write : Z -> string -> W -> option string * W;
  Flush : W -> option string * W
}.

Record logger := {
  logLevel : Z;
  logWriter : LogWriter
}.

(** [newLogger] (lines 89 to 93) sets the writer only: the level is the
    zero value. *)
Definition newLogger (impl : LogWriter) : logger :=
  {| logLevel := 0; logWriter := impl |}.

(** [fmt.Sprint] of one string is that string. *)
Definition Sprint (s : string) : string := s.

(** [write] (lines 95 to 123).  A level under the logger's returns nil at
    once; no argument is an error; the first argument is the format when it
    is a string, and otherwise the format is [fmt.Sprint] of the still
    empty [format] variable; the rest are the operands; the result is the
    error of the writer, if any. *)
Definition write (l : logger) (level : Z) (args : list GoValue) (w : W)
  : option string * W :=
  if (level <? logLevel l)%Z then (None, w)
  else
    match args with
    | [] => (Some "args num is 0", w)
    | first :: realArgs =>
        let format := match first with
                      | VString s => s
                      | _ => Sprint ""
                      end in
        Write (logWriter l) level (Sprintf format realArgs) w
    end.

(** [Flush] (lines 125 to 127). *)
Definition logger_Flush (l : logger) (w : W) : option string * W :=
  Flush (logWriter l) w.

(** The body shared by [Debugf], [Infof], [Warnf] and [Errorf] (lines 54 to
    78): [write] of the format followed by the operands, and a panic with
    the error when there is one. *)
Definition logf (l : logger) (level : Z) (format : string) (args : list GoValue) (w : W)
  : Res W :=
  match write l level (VString format :: args) w with
  | (Some err, _) => Panic err
  | (None, w') => Ok w'
  end.

(** The levels of package utils, which is not part of the sources at hand. *)
Variables LevelDebug LevelInfo LevelWarn LevelError : Z.

Definition Debugf (l : logger) := logf l LevelDebug.
Definition Infof (l : logger) := logf l LevelInfo.
Definition Warnf (l : logger) := logf l LevelWarn.
Definition Errorf (l : logger) := logf l LevelError.

End logger.

Arguments Write {W} _ _ _ _.
Arguments Flush {W} _ _.
Arguments logLevel {W} _.
Arguments logWriter {W} _.
Arguments newLogger {W} impl.
Arguments write {W} Sprintf l level args w.
Arguments logf {W} Sprintf l level format args w.
Arguments Debugf {W} Sprintf LevelDebug l format args w.
Arguments Infof {W} Sprintf LevelInfo l format args w.
Arguments Warnf {W} Sprintf LevelWarn l format args w.
Arguments Errorf {W} Sprintf LevelError l format args w.

End log.

(** ** The README generator *)

Module readme.

Definition newline : Ascii.ascii := Ascii.ascii_of_nat 10.

(** [strings.Split(s, "\n")]: the pieces of [s] between line feeds, one more
    than there are line feeds. *)
Fixpoint Split (s : string) : list string :=
  match s with
  | EmptyString => [""]
  | String c rest =>
      if decide (c = newline) then "" :: Split rest
      else match Split rest with
           | line :: lines => String c line :: lines
           | [] => [String c ""]
           end
  end.

(** [strings.Join(lines, "\n")] *)
Fixpoint Join (lines : list string) : string :=
  match lines with
  | [] => ""
  | line :: rest =>
      match rest with
      | [] => line
      | _ :: _ => line +:+ String newline (Join rest)
      end
  end.

(** [s[n:]] *)
Fixpoint string_drop (n : nat) (s : string) : string :=
  match n, s with
  | S m, String _ rest => string_drop m rest
  | _, _ => s
  end.

Record Function := {
  Name : string;
  DescriptiveName : string;
  For : Z;
  Doc : string;
  BigO : string
}.

(** The loop of [BriefDoc]: it stops at the first empty line and adds each
    line before it, followed by a space. *)
Fixpoint brief_lines (lines : list string) (brief : string) : string :=
  match lines with
  | [] => brief
  | line :: rest =>
      if decide (line = "") then brief
      else brief_lines rest (brief +:+ (line +:+ " "))
  end.

(** [BriefDoc] (lines 39 to 49). *)
Definition BriefDoc (f : Function) : string :=
  brief_lines (Split (Doc f)) "".

(** A declaration as [getDoc] looks at it: a function declaration with its
    doc comment, if it has one, as the texts of its comment lines, or any
    other declaration. *)
Inductive Decl :=
| FuncDecl (Doc : option (list string))
| OtherDecl.

(** What one comment line adds to the doc: a line feed alone when the text
    is shorter than three bytes, and otherwise the text from its fourth
    byte on, followed by a line feed. *)
Definition comment_doc (doc : string) (text : string) : string :=
  if Nat.ltb (String.length text) 3
  then doc +:+ String newline ""
  else doc +:+ (string_drop 3 text +:+ String newline "").

(** The first loop of [getDoc] (lines 144 to 154). *)
Definition decls_doc (decls : list Decl) : string :=
  fold_left
    (fun doc decl =>
       match decl with
       | FuncDecl (Some comments) => fold_left comment_doc comments doc
       | _ => doc
       end)
    decls "".

(** One round of the second loop of [getDoc] (lines 160 to 180), on the
    lines collected so far and the flag [inCodeBlock]. *)
Definition fix_line (st : list string * bool) (line : string) : list string * bool :=
  let newLines := if decide (line = "") then st.1 ++ [""] else st.1 in
  if String.prefix "  " line then
    if st.2 then (newLines ++ [string_drop 2 line], true)
    else (newLines ++ ["```go"; string_drop 2 line], true)
  else
    if st.2 then (newLines ++ ["```"; line], false)
    else (newLines ++ [line], false).

(** [getDoc] (lines 143 to 183). *)
Definition getDoc (decls : list Decl) : string :=
  Join (fold_left fix_line (Split (decls_doc decls)) ([], false)).1.

End readme.

(** * Properties *)

(** ** Auxiliary notions *)

(** The mappable fields of a struct type, in declaration order. *)
Definition mapped (sd : StructDecl) : list FieldDecl :=
  List.filter schema.mappable (sd_fields sd).

(** A registry is sound when every schema it caches is the one derived from
    its key.  The empty registry is sound and [Model] keeps it so. *)
Definition registry_ok (r : schema.Registry) : Prop :=
  forall sd t, schema.cache r !! sd = Some t -> t = schema.Parse sd.

(** A destination for [Find]: a pointer to a slice of structs. *)
Definition dest_ptr (sd : StructDecl) (items : option (list GoValue)) : GoValue :=
  VPtr (TSlice (TStruct sd)) (Some (VSlice (TStruct sd) items)).

(** The same destination as [reflect.Indirect] sees it. *)
Definition dest_slice (sd : StructDecl) (items : option (list GoValue)) : reflect.Value :=
  {| reflect.v_val := VSlice (TStruct sd) items;
     reflect.v_typ := TSlice (TStruct sd);
     reflect.v_addr := true;
     reflect.v_ro := false |}.

(** A slice after [elems] were appended one by one; nothing appended leaves
    it as it was, nil included. *)
Definition appended (items : option (list GoValue)) (elems : list GoValue)
  : option (list GoValue) :=
  match elems with
  | [] => items
  | _ :: _ => Some (default [] items ++ elems)
  end.

(** A value [Insert] can store in the table of [sd]: a struct of that type,
    or a non-nil pointer to one, holding one value per declared field. *)
Definition is_record (sd : StructDecl) (v : GoValue) : Prop :=
  schema.struct_of (type_of v) = Some sd /\
  exists fs, schema.indirect v = VStruct sd fs /\ length fs = length (sd_fields sd).

(** The text of a statement: the fragments one after the other. *)
Definition join (l : list string) : string := foldr String.append "" l.

(** The field values of an element filled from [cols]: each mappable field
    takes the next column, every other field keeps its zero value. *)
Fixpoint fill (fields : list FieldDecl) (cols : list GoValue) : list GoValue :=
  match fields with
  | [] => []
  | f :: rest =>
      if schema.mappable f
      then match cols with
           | c :: cs => c :: fill rest cs
           | [] => zero_kind (fd_kind f) :: fill rest []
           end
      else zero_kind (fd_kind f) :: fill rest cols
  end.

(** The clause set once [Find] has set SELECT for the schema of [sd]. *)
Definition select_clause (g : clause.Generators) (s : session.Session) (sd : StructDecl)
  : gmap clause.Type_ clause.Fragment :=
  clause.Set_ g (session.clause s) clause.SELECT
    [VString (sd_name sd); session.strings (map fd_name (mapped sd))].

(** The statement [Find] builds from it. *)
Definition select_statement (g : clause.Generators) (s : session.Session) (sd : StructDecl)
  : string * list GoValue :=
  clause.Build (select_clause g s sd)
    [clause.SELECT; clause.WHERE; clause.ORDERBY; clause.LIMIT].

(** The session once the statement was handed to the executor. *)
Definition querying (g : clause.Generators) (s : session.Session) (sd : StructDecl)
  : session.Session :=
  {| session.clause := select_clause g s sd;
     session.registry := (schema.Model (session.registry s) (zero (TStruct sd))).1;
     session.calls :=
       session.calls s
       ++ [session.EvQuery (select_statement g s sd).1 (select_statement g s sd).2] |}.

(** The struct type behind a value; the empty struct for any other value. *)
Definition struct_type (v : GoValue) : StructDecl :=
  default {| sd_name := ""; sd_fields := [] |} (schema.struct_of (type_of v)).

(** A value whose schema can be derived. *)
Definition modelable (v : GoValue) : Prop :=
  exists sd, schema.struct_of (type_of v) = Some sd /\ mapped sd <> [].

(** What [Insert] hands to [Set] for one value: the INSERT arguments and the
    record appended to the VALUES arguments. *)
Definition insert_args (v : GoValue) : list GoValue :=
  [VString (sd_name (struct_type v));
   session.strings (map fd_name (mapped (struct_type v)))].

Definition record_arg (v : GoValue) : GoValue :=
  VSlice TInterface (Some (schema.RecordValues (schema.Parse (struct_type v)) v)).

(** The clause set of [Insert] just before [Build]. *)
Definition insert_clause (g : clause.Generators) (s : session.Session)
           (values : list GoValue) : gmap clause.Type_ clause.Fragment :=
  clause.Set_ g
    (foldl (fun c v => clause.Set_ g c clause.INSERT (insert_args v)) (session.clause s) values)
    clause.VALUES (map record_arg values).

Definition insert_statement (g : clause.Generators) (s : session.Session)
           (values : list GoValue) : string * list GoValue :=
  clause.Build (insert_clause g s values) [clause.INSERT; clause.VALUES].

(** The pointers to the mappable fields of [fields], the first of which
    sits at position [off] of the struct. *)
Fixpoint ptrs_from (off : nat) (fields : list FieldDecl) : list reflect.FieldPtr :=
  match fields with
  | [] => []
  | f :: rest =>
      if schema.mappable f
      then {| reflect.fp_index := off; reflect.fp_kind := fd_kind f |} :: ptrs_from (S off) rest
      else ptrs_from (S off) rest
  end.

(** A slice of structs handed to [Find] itself, not through a pointer, as
    [reflect.ValueOf] sees it. *)
Definition slice_value (sd : StructDecl) (items : option (list GoValue)) : reflect.Value :=
  {| reflect.v_val := VSlice (TStruct sd) items;
     reflect.v_typ := TSlice (TStruct sd);
     reflect.v_addr := false;
     reflect.v_ro := false |}.

Definition is_query (e : session.Event) : bool :=
  match e with session.EvQuery _ _ => true | _ => false end.

Definition is_exec (e : session.Event) : bool :=
  match e with session.EvExec _ _ => true | _ => false end.

(** The calls a cursor receives. *)
Definition is_cursor_call (e : session.Event) : bool :=
  match e with
  | session.EvNext | session.EvScan | session.EvClose => true
  | _ => false
  end.

(** The static type of what [reflect.Indirect(reflect.ValueOf(values))]
    holds: nothing for the nil interface and for a nil pointer, the pointed
    type for any other pointer, and the value's own type otherwise. *)
Definition indirect_type (values : GoValue) : option GoType :=
  match values with
  | VNil => None
  | VPtr _ None => None
  | VPtr t (Some _) => Some t
  | v => Some (type_of v)
  end.

(** The two options package hconfig offers, as data. *)
Inductive Setting (DataSource : Type) :=
| SetDataSource (d : option DataSource)
| SetUseLocal.
Arguments SetDataSource {DataSource} d.
Arguments SetUseLocal {DataSource}.

Definition setting_option {DataSource} (x : Setting DataSource) : hconfig.Option DataSource :=
  match x with
  | SetDataSource d => hconfig.WithDataSource d
  | SetUseLocal => hconfig.WithUseLocal
  end.

(** The data sources given, in order. *)
Definition data_sources {DataSource} (xs : list (Setting DataSource))
  : list (option DataSource) :=
  omap (fun x => match x with SetDataSource d => Some d | SetUseLocal => None end) xs.

Definition sets_local {DataSource} (x : Setting DataSource) : bool :=
  match x with SetUseLocal => true | SetDataSource _ => false end.

(** No hint in the map is the empty string. *)
Definition hints_nonempty (logCtx : gmap Z string) : Prop :=
  forall j h, logCtx !! j = Some h -> h <> "".

(** A log writer that keeps what it is given and fails on messages longer
    than [limit]. *)
Definition bounded_writer (limit : nat) : log.LogWriter (list (Z * string)) :=
  {| log.Write := fun level msg w =>
       if Nat.ltb limit (String.length msg) then (Some "message too long", w)
       else (None, w ++ [(level, msg)]);
     log.Flush := fun w => (None, w) |}.

(** A stand-in for [fmt.Sprintf]: the format followed by the number of
    operands. *)
Definition sample_Sprintf (format : string) (args : list GoValue) : string :=
  format +:+ String.concat "" (map (fun _ => "!") args).

(** A string without a line feed. *)
Fixpoint newline_free (s : string) : Prop :=
  match s with
  | EmptyString => True
  | String c rest => c <> readme.newline /\ newline_free rest
  end.

(** A line of prose: not empty and not indented by two spaces. *)
Definition prose (line : string) : Prop :=
  line <> "" /\ String.prefix "  " line = false /\ newline_free line.

(** A line of code: indented by two spaces. *)
Definition code (line : string) : Prop :=
  String.prefix "  " line = true /\ newline_free line.

(** A function declaration whose doc comment has the given lines, each
    written after two slashes and a space. *)
Definition documented (lines : list string) : readme.Decl :=
  readme.FuncDecl (Some (map (fun line => "// " +:+ line) lines)).

Definition with_doc (doc : string) : readme.Function :=
  {| readme.Name := "Abs"; readme.DescriptiveName := "Abs"; readme.For := 2;
     readme.Doc := doc; readme.BigO := "n" |}.


(** The types [Type.Elem] panics on: those without elements. *)
Definition elem_less (t : GoType) : Prop :=
  match t with
  | TScalar _ | TInterface | TStruct _ => True
  | _ => False
  end.

(** A second struct type, and a record of it. *)
Definition Account : StructDecl :=
  {| sd_name := "Account";
     sd_fields :=
       [ {| fd_name := "Id"; fd_kind := KInt; fd_ignored := false |};
         {| fd_name := "Owner"; fd_kind := KString; fd_ignored := false |} ] |}.

Definition Acme : GoValue := VStruct Account [VInt 1; VString "acme"].

(** The column list of an INSERT or SELECT argument, separated by commas. *)
Definition column_names (cols : GoValue) : string :=
  String.concat ","
    (map (fun c => match c with VString name => name | _ => "?" end) (items_of cols)).

(** Generators that write the table name and the columns they are given,
    and one placeholder per value of a record. *)
Definition naming_generators : clause.Generators :=
  {| clause.render :=
       fun k args =>
         match k, args with
         | clause.INSERT, [VString table; cols] =>
             "INSERT INTO " +:+ table +:+ " (" +:+ column_names cols +:+ ") "
         | clause.SELECT, [VString table; cols] =>
             "SELECT " +:+ column_names cols +:+ " FROM " +:+ table +:+ " "
         | clause.VALUES, records =>
             "VALUES "
             +:+ String.concat ", "
                   (map (fun r => "(" +:+ String.concat "," (map (fun _ => "?") (items_of r))
                                  +:+ ")") records)
         | _, _ => "... "
         end;
     clause.bind := fun _ args => args |}.

(** ** Sample data *)

(** A struct type with two mapped fields around an unexported one. *)
Definition User : StructDecl :=
  {| sd_name := "User";
     sd_fields :=
       [ {| fd_name := "Name"; fd_kind := KString; fd_ignored := false |};
         {| fd_name := "secret"; fd_kind := KInt; fd_ignored := false |};
         {| fd_name := "Age"; fd_kind := KInt; fd_ignored := false |} ] |}.

Definition Tom : GoValue := VStruct User [VString "Tom"; VInt 7; VInt 18].
Definition Sam : GoValue := VStruct User [VString "Sam"; VInt 9; VInt 25].

Definition sample_generators : clause.Generators :=
  {| clause.render :=
       fun k _ =>
         match k with
         | clause.INSERT => "INSERT INTO User (Name,Age) "
         | clause.VALUES => "VALUES (?,?) "
         | clause.SELECT => "SELECT Name,Age FROM User "
         | clause.WHERE => "WHERE Age > ? "
         | _ => "... "
         end;
     clause.bind := fun _ args => args |}.

(** An executor that reports one affected row and opens the given cursor. *)
Definition executor_with (rows : session.Rows) : session.Executor :=
  {| session.Exec := fun _ _ => session.ExecDone 1 None;
     session.QueryRows := fun _ _ => session.QueryOpened rows |}.

Definition fresh_session : session.Session :=
  {| session.clause := ∅;
     session.registry := {| schema.cache := ∅; schema.derived := 0 |};
     session.calls := [] |}.

(** Three rows, the second of which cannot be scanned. *)
Definition three_rows_second_fails : session.Rows :=
  {| session.pending :=
       [ session.RowData [VString "Tom"; VInt 18];
         session.RowFail (ScanError "forced");
         session.RowData [VString "Sam"; VInt 25] ];
     session.close_err := None |}.

Definition two_rows (close : option Error) : session.Rows :=
  {| session.pending :=
       [ session.RowData [VString "Tom"; VInt 18];
         session.RowData [VString "Sam"; VInt 25] ];
     session.close_err := close |}.

Definition no_rows (close : option Error) : session.Rows :=
  {| session.pending := []; session.close_err := close |}.

(** ** The registry *)

Lemma registry_ok_empty d : registry_ok {| schema.cache := ∅; schema.derived := d |}.
Proof. intros sd t H. simpl in H. by rewrite lookup_empty in H. Qed.

Lemma Parse_Fields sd :
  schema.Fields (schema.Parse sd)
  = map (fun f => {| schema.FieldName := fd_name f; schema.ColumnName := fd_name f |}) (mapped sd).
Proof. reflexivity. Qed.

Lemma Parse_FieldNames sd :
  schema.FieldNames (schema.Parse sd) = map fd_name (mapped sd).
Proof. reflexivity. Qed.

Lemma Model_struct r v sd :
  registry_ok r ->
  mapped sd <> [] ->
  schema.struct_of (type_of v) = Some sd ->
  exists r',
    schema.Model r v = (r', inr (schema.Parse sd)) /\
    registry_ok r' /\
    schema.cache r' !! sd = Some (schema.Parse sd).
Proof.
  intros Hok Hne Hty. unfold schema.Model. rewrite Hty.
  destruct (schema.cache r !! sd) as [t|] eqn:Hc.
  - pose proof (Hok _ _ Hc) as ->. by exists r.
  - rewrite Parse_Fields.
    destruct (mapped sd) as [|f fs] eqn:Hm; [done|]. simpl.
    eexists. split; [reflexivity|]. split.
    + intros sd' t. simpl. rewrite lookup_insert.
      case_decide as Heq; [subst sd'; by intros [= <-] | apply Hok].
    + simpl. by rewrite lookup_insert_eq.
Qed.

Lemma Model_cached r v sd t :
  schema.struct_of (type_of v) = Some sd ->
  schema.cache r !! sd = Some t ->
  schema.Model r v = (r, inr t).
Proof. intros Hty Hc. unfold schema.Model. by rewrite Hty, Hc. Qed.

(** ** Field pointers *)

Lemma field_index_Some name fields :
  name ∈ map fd_name fields ->
  exists i f, reflect.field_index name fields = Some (i, f) /\ fd_name f = name.
Proof.
  induction fields as [|f rest IH]; simpl; intros Hin.
  - by apply elem_of_nil in Hin.
  - destruct (decide (fd_name f = name)) as [Heq|Hne]; [by eauto|].
    apply elem_of_cons in Hin as [Heq|Hin]; [congruence|].
    destruct (IH Hin) as (i & f' & -> & Hn). eauto.
Qed.

Lemma mapped_names_in sd name :
  name ∈ map fd_name (mapped sd) ->
  is_exported name = true /\ name ∈ map fd_name (sd_fields sd).
Proof.
  unfold mapped. intros Hin.
  apply list_elem_of_fmap in Hin as (f & -> & Hf).
  apply list_elem_of_In, filter_In in Hf as [Hf Hm].
  unfold schema.mappable in Hm. apply andb_true_iff in Hm as [Hm _].
  split; [done|]. apply list_elem_of_fmap. exists f.
  split; [done|]. by apply list_elem_of_In.
Qed.

Lemma field_ptrs_ok sd names :
  Forall (fun n => is_exported n = true /\ n ∈ map fd_name (sd_fields sd)) names ->
  exists ps, session.field_ptrs (reflect.NewElem (TStruct sd)) names = Ok ps.
Proof.
  induction 1 as [|n names [Hex Hin] _ [ps IH]]; simpl; [by eauto|].
  destruct (field_index_Some _ _ Hin) as (i & f & Hi & _).
  unfold reflect.FieldByName. simpl. rewrite Hi. simpl.
  unfold reflect.AddrInterface. simpl. rewrite Hex. simpl.
  rewrite IH. simpl. eauto.
Qed.

(** On a struct type and the column names of its schema the body of the
    loop of [Find] does not panic. *)
Lemma scan_row_ok sd row :
  exists r, session.scan_row (TStruct sd) (map fd_name (mapped sd)) row = Ok r.
Proof.
  unfold session.scan_row.
  destruct (field_ptrs_ok sd (map fd_name (mapped sd))) as [ps Hps].
  - apply Forall_forall. intros n Hn. by apply mapped_names_in.
  - rewrite Hps. simpl. eauto.
Qed.

(** ** The loop of Find *)

Lemma appended_snoc items v elems :
  appended (Some (default [] items ++ [v])) elems = appended items (v :: elems).
Proof.
  destruct elems as [|e elems]; simpl; [done|]. by rewrite <- app_assoc.
Qed.

(** Rows that scan are appended in order, and the loop goes on with the
    rest of the cursor. *)
Lemma find_rows_app sd names good elems rest close items :
  Forall2 (fun row v => session.scan_row (TStruct sd) names row = Ok (inr v)) good elems ->
  session.find_rows (TStruct sd) names (good ++ rest) close (dest_slice sd items)
  = let '(o, d, evs) :=
      session.find_rows (TStruct sd) names rest close (dest_slice sd (appended items elems)) in
    (o, d, flat_map (fun _ => [session.EvNext; session.EvScan]) good ++ evs).
Proof.
  intros H. revert items.
  induction H as [|row v good elems Hrow _ IH]; intros items.
  - simpl. by destruct (session.find_rows _ _ _ _ _) as [[o d] evs].
  - simpl. rewrite Hrow. simpl.
    change {| reflect.v_val := VSlice (TStruct sd) (Some (default [] items ++ [v]));
              reflect.v_typ := TSlice (TStruct sd);
              reflect.v_addr := true; reflect.v_ro := false |}
      with (dest_slice sd (Some (default [] items ++ [v]))).
    rewrite IH, appended_snoc.
    by destruct (session.find_rows _ _ rest _ _) as [[o d] evs].
Qed.

(** ** Find on a well-formed destination *)

Lemma Find_dest g ex s sd items :
  registry_ok (session.registry s) ->
  mapped sd <> [] ->
  session.Find g ex (dest_ptr sd items) s
  = match session.QueryRows ex (select_statement g s sd).1 (select_statement g s sd).2 with
    | session.QueryFailed err =>
        {| session.outcome := session.Returned (Some err);
           session.after := querying g s sd;
           session.destination := Some (VSlice (TStruct sd) items) |}
    | session.QueryOpened rows =>
        let '(o, d, evs) :=
          session.find_rows (TStruct sd) (map fd_name (mapped sd)) (session.pending rows)
            (session.close_err rows) (dest_slice sd items) in
        {| session.outcome := o;
           session.after := session.with_calls (querying g s sd) evs;
           session.destination := Some (reflect.v_val d) |}
    end.
Proof.
  intros Hok Hne.
  destruct (Model_struct (session.registry s) (zero (TStruct sd)) sd Hok Hne eq_refl)
    as (r' & HM & _ & _).
  unfold session.Find, querying, select_statement, select_clause.
  simpl in HM |- *. unfold session.Model. rewrite !HM. simpl.
  destruct (clause.Build _ _) as [sql vars]. simpl.
  by destruct (session.QueryRows ex sql vars).
Qed.

(** ** Counting cursor calls *)

Lemma closes_app l1 l2 : session.closes (l1 ++ l2) = session.closes l1 + session.closes l2.
Proof. unfold session.closes. by rewrite List.filter_app, length_app. Qed.

Lemma scans_app l1 l2 : session.scans (l1 ++ l2) = session.scans l1 + session.scans l2.
Proof. unfold session.scans. by rewrite List.filter_app, length_app. Qed.

Lemma closes_scanned {A} (l : list A) :
  session.closes (flat_map (fun _ => [session.EvNext; session.EvScan]) l) = 0.
Proof. induction l; [done|]. simpl. apply IHl. Qed.

Lemma scans_scanned {A} (l : list A) :
  session.scans (flat_map (fun _ => [session.EvNext; session.EvScan]) l) = length l.
Proof.
  induction l as [|a l IH]; [done|].
  change (S (session.scans (flat_map (fun _ => [session.EvNext; session.EvScan]) l))
          = S (length l)).
  by rewrite IH.
Qed.

(** ** Find: the cursor and the destination *)

(** C10: when every row of the cursor scans, [Find] returns what
    [rows.Close()] returns.  A failing [Close] is therefore reported to the
    caller although every row was appended to the destination, and on this
    path [Close] is called exactly once. *)
Theorem Find_returns_Close_result g ex s sd items rows elems :
  registry_ok (session.registry s) ->
  mapped sd <> [] ->
  session.QueryRows ex (select_statement g s sd).1 (select_statement g s sd).2
  = session.QueryOpened rows ->
  Forall2 (fun row v =>
             session.scan_row (TStruct sd) (map fd_name (mapped sd)) row = Ok (inr v))
          (session.pending rows) elems ->
  let r := session.Find g ex (dest_ptr sd items) s in
  session.outcome r = session.Returned (session.close_err rows) /\
  session.destination r = Some (VSlice (TStruct sd) (appended items elems)) /\
  session.closes (session.calls (session.after r)) = S (session.closes (session.calls s)).
Proof.
  intros Hok Hne Hq Hrows r. subst r.
  rewrite Find_dest, Hq by done.
  rewrite <- (app_nil_r (session.pending rows)).
  rewrite (find_rows_app _ _ _ _ _ _ _ Hrows). simpl.
  repeat split.
  rewrite !closes_app, closes_scanned. unfold session.closes. simpl. lia.
Qed.

Lemma Find_returns_Close_result_witness :
  let r := session.Find sample_generators
             (executor_with (two_rows (Some (ExecutorError "close"))))
             (dest_ptr User None) fresh_session in
  session.outcome r = session.Returned (Some (ExecutorError "close")) /\
  session.destination r
  = Some (VSlice (TStruct User)
            (Some [VStruct User [VString "Tom"; VInt 0; VInt 18];
                   VStruct User [VString "Sam"; VInt 0; VInt 25]])) /\
  session.closes (session.calls (session.after r)) = 1.
Proof.
  apply (Find_returns_Close_result sample_generators
           (executor_with (two_rows (Some (ExecutorError "close"))))
           fresh_session User None (two_rows (Some (ExecutorError "close")))
           [VStruct User [VString "Tom"; VInt 0; VInt 18];
            VStruct User [VString "Sam"; VInt 0; VInt 25]]).
  - apply registry_ok_empty.
  - vm_compute. discriminate.
  - reflexivity.
  - repeat constructor.
Defined.

(** C4: when the rows before row [i] scan and row [i] does not, [Find]
    stops there and returns the scan error; the destination holds what it
    held before followed by the [i-1] elements of the rows scanned, in
    order, so exactly these elements when it held none, and the rows after
    the failing one are never scanned. *)
Theorem Find_scan_error_keeps_partial_result g ex s sd items rows good bad rest elems e :
  registry_ok (session.registry s) ->
  mapped sd <> [] ->
  session.QueryRows ex (select_statement g s sd).1 (select_statement g s sd).2
  = session.QueryOpened rows ->
  session.pending rows = good ++ bad :: rest ->
  Forall2 (fun row v =>
             session.scan_row (TStruct sd) (map fd_name (mapped sd)) row = Ok (inr v))
          good elems ->
  session.scan_row (TStruct sd) (map fd_name (mapped sd)) bad = Ok (inl e) ->
  let r := session.Find g ex (dest_ptr sd items) s in
  session.outcome r = session.Returned (Some e) /\
  session.destination r = Some (VSlice (TStruct sd) (appended items elems)) /\
  (default [] items = [] -> items_of <$> session.destination r = Some elems) /\
  length elems = length good /\
  session.scans (session.calls (session.after r))
  = session.scans (session.calls s) + S (length good).
Proof.
  intros Hok Hne Hq Hp Hgood Hbad r. subst r.
  rewrite Find_dest, Hq, Hp by done.
  rewrite (find_rows_app _ _ _ _ _ _ _ Hgood). simpl. rewrite Hbad. simpl.
  repeat split.
  - intros Hempty. f_equal. destruct elems; simpl; [|by rewrite Hempty].
    by destruct items; simpl in *; subst.
  - symmetry. by eapply Forall2_length.
  - rewrite !scans_app, scans_scanned. unfold session.scans. simpl. lia.
Qed.

Lemma Find_scan_error_keeps_partial_result_witness :
  let r := session.Find sample_generators (executor_with three_rows_second_fails)
             (dest_ptr User (Some [])) fresh_session in
  session.outcome r = session.Returned (Some (ScanError "forced")) /\
  session.destination r
  = Some (VSlice (TStruct User) (Some [VStruct User [VString "Tom"; VInt 0; VInt 18]])) /\
  (default [] (Some []) = @nil GoValue ->
   items_of <$> session.destination r
   = Some [VStruct User [VString "Tom"; VInt 0; VInt 18]]) /\
  1 = 1 /\
  session.scans (session.calls (session.after r)) = 2.
Proof.
  apply (Find_scan_error_keeps_partial_result sample_generators
           (executor_with three_rows_second_fails) fresh_session User (Some [])
           three_rows_second_fails
           [session.RowData [VString "Tom"; VInt 18]]
           (session.RowFail (ScanError "forced"))
           [session.RowData [VString "Sam"; VInt 25]]
           [VStruct User [VString "Tom"; VInt 0; VInt 18]]
           (ScanError "forced")).
  - apply registry_ok_empty.
  - vm_compute. discriminate.
  - reflexivity.
  - reflexivity.
  - repeat constructor.
  - reflexivity.
Defined.

(** C1: when a row fails to scan, [Find] returns the scan error without
    any call of [Close]: the cursor obtained from the executor is left open
    on this exit path. *)
Theorem Find_scan_error_skips_Close g ex s sd items rows good bad rest elems e :
  registry_ok (session.registry s) ->
  mapped sd <> [] ->
  session.QueryRows ex (select_statement g s sd).1 (select_statement g s sd).2
  = session.QueryOpened rows ->
  session.pending rows = good ++ bad :: rest ->
  Forall2 (fun row v =>
             session.scan_row (TStruct sd) (map fd_name (mapped sd)) row = Ok (inr v))
          good elems ->
  session.scan_row (TStruct sd) (map fd_name (mapped sd)) bad = Ok (inl e) ->
  let r := session.Find g ex (dest_ptr sd items) s in
  session.outcome r = session.Returned (Some e) /\
  session.closes (session.calls (session.after r)) = session.closes (session.calls s).
Proof.
  intros Hok Hne Hq Hp Hgood Hbad r. subst r.
  rewrite Find_dest, Hq, Hp by done.
  rewrite (find_rows_app _ _ _ _ _ _ _ Hgood). simpl. rewrite Hbad. simpl.
  split; [done|].
  rewrite !closes_app, closes_scanned. unfold session.closes. simpl. lia.
Qed.

Lemma Find_scan_error_skips_Close_witness :
  let r := session.Find sample_generators (executor_with three_rows_second_fails)
             (dest_ptr User (Some [])) fresh_session in
  session.outcome r = session.Returned (Some (ScanError "forced")) /\
  session.closes (session.calls (session.after r)) = 0.
Proof.
  apply (Find_scan_error_skips_Close sample_generators
           (executor_with three_rows_second_fails) fresh_session User (Some [])
           three_rows_second_fails
           [session.RowData [VString "Tom"; VInt 18]]
           (session.RowFail (ScanError "forced"))
           [session.RowData [VString "Sam"; VInt 25]]
           [VStruct User [VString "Tom"; VInt 0; VInt 18]]
           (ScanError "forced")).
  - apply registry_ok_empty.
  - vm_compute. discriminate.
  - reflexivity.
  - reflexivity.
  - repeat constructor.
  - reflexivity.
Defined.

Example Find_second_row_fails_calls :
  session.calls
    (session.after
       (session.Find sample_generators (executor_with three_rows_second_fails)
          (dest_ptr User (Some [])) fresh_session))
  = [session.EvQuery "SELECT Name,Age FROM User " [];
     session.EvNext; session.EvScan; session.EvNext; session.EvScan].
Proof. reflexivity. Qed.

(** C5, as stated, fails: with no rows and a nil destination slice [Find]
    succeeds and the slice is still nil; and with no rows and a failing
    [Close] it returns that error. *)
Lemma Find_zero_rows_leaves_nil_slice :
  (let r := session.Find sample_generators (executor_with (no_rows None))
              (dest_ptr User None) fresh_session in
   session.outcome r = session.Returned None /\
   session.destination r = Some (VSlice (TStruct User) None) /\
   session.destination r <> Some (VSlice (TStruct User) (Some []))) /\
  (let r := session.Find sample_generators
              (executor_with (no_rows (Some (ExecutorError "close"))))
              (dest_ptr User (Some [])) fresh_session in
   session.outcome r <> session.Returned None).
Proof. vm_compute. repeat split; discriminate. Qed.

(** C5, amended: when the cursor has no rows, [Find] returns what
    [rows.Close()] returns, so no error when [Close] succeeds, and leaves
    the destination as the caller passed it: empty if it was empty, nil if
    it was nil. *)
Theorem Find_zero_rows g ex s sd items rows :
  registry_ok (session.registry s) ->
  mapped sd <> [] ->
  session.QueryRows ex (select_statement g s sd).1 (select_statement g s sd).2
  = session.QueryOpened rows ->
  session.pending rows = [] ->
  let r := session.Find g ex (dest_ptr sd items) s in
  session.outcome r = session.Returned (session.close_err rows) /\
  (session.close_err rows = None -> session.outcome r = session.Returned None) /\
  session.destination r = Some (VSlice (TStruct sd) items).
Proof.
  intros Hok Hne Hq Hp r. subst r.
  rewrite Find_dest, Hq, Hp by done. simpl.
  repeat split. by intros ->.
Qed.

Lemma Find_zero_rows_witness :
  let r := session.Find sample_generators (executor_with (no_rows None))
             (dest_ptr User (Some [])) fresh_session in
  session.outcome r = session.Returned None /\
  (session.close_err (no_rows None) = None -> session.outcome r = session.Returned None) /\
  session.destination r = Some (VSlice (TStruct User) (Some [])).
Proof.
  apply (Find_zero_rows sample_generators (executor_with (no_rows None))
           fresh_session User (Some []) (no_rows None)).
  - apply registry_ok_empty.
  - vm_compute. discriminate.
  - reflexivity.
  - reflexivity.
Defined.

(** ** Panics *)


Lemma insert_values_spec g values s acc :
  registry_ok (session.registry s) ->
  Forall modelable values ->
  exists s',
    session.insert_values g values s acc = inr (s', acc ++ map record_arg values) /\
    registry_ok (session.registry s') /\
    session.calls s' = session.calls s /\
    session.clause s'
    = foldl (fun c v => clause.Set_ g c clause.INSERT (insert_args v)) (session.clause s) values.
Proof.
  intros Hok Hall. revert s acc Hok.
  induction Hall as [|v values (sd & Hty & Hne) _ IH]; intros s acc Hok; simpl.
  - exists s. by rewrite app_nil_r.
  - destruct (Model_struct _ v sd Hok Hne Hty) as (r' & HM & Hok' & _).
    unfold session.Model. rewrite HM.
    match goal with |- context [session.insert_values g values ?s2 ?acc2] =>
      destruct (IH s2 acc2 Hok') as (s' & Hs' & Hok'' & Hcalls & Hcl) end.
    exists s'. rewrite Hs', Hcl, Hcalls. simpl.
    unfold record_arg, insert_args, struct_type. rewrite Hty. simpl.
    by rewrite <- app_assoc.
Qed.

Lemma Insert_spec g ex values s :
  registry_ok (session.registry s) ->
  Forall modelable values ->
  exists s',
    session.Insert g ex values s
    = (match session.Exec ex (insert_statement g s values).1 (insert_statement g s values).2 with
       | session.ExecFailed err => session.Returned (0%Z, Some err)
       | session.ExecDone n err => session.Returned (n, err)
       end, s') /\
    session.calls s'
    = session.calls s
      ++ [session.EvExec (insert_statement g s values).1 (insert_statement g s values).2] /\
    session.clause s' = insert_clause g s values.
Proof.
  intros Hok Hall.
  destruct (insert_values_spec g values s [] Hok Hall) as (s1 & Hs1 & _ & Hcalls & Hcl).
  unfold session.Insert, insert_statement, insert_clause. rewrite Hs1. simpl.
  rewrite Hcl.
  destruct (clause.Build _ _) as [sql vars]. simpl.
  destruct (session.Exec ex sql vars); eexists; (split; [reflexivity|]); simpl;
    by rewrite Hcalls.
Qed.




Lemma modelable_User fs : modelable (VStruct User fs).
Proof. exists User. split; [reflexivity|]. vm_compute. discriminate. Qed.


(** ** The clause set *)

Lemma append_nil_r (a : string) : a +:+ "" = a.
Proof.
  induction a as [|x a IH]; [done|].
  change (String x (a +:+ "") = String x a). by rewrite IH.
Qed.

Lemma append_assoc (a b c : string) : (a +:+ b) +:+ c = a +:+ (b +:+ c).
Proof.
  induction a as [|x a IH]; [done|].
  change (String x ((a +:+ b) +:+ c) = String x (a +:+ (b +:+ c))). by rewrite IH.
Qed.

Lemma Build_from (c : gmap clause.Type_ clause.Fragment) (kinds : list clause.Type_)
      (a : string) (p : list GoValue) :
  fold_left
    (fun acc k =>
       match c !! k with
       | Some f => (acc.1 +:+ clause.sql f, acc.2 ++ clause.vars f)
       | None => acc
       end)
    kinds (a, p)
  = (a +:+ join (map clause.sql (omap (fun k => c !! k) kinds)),
     p ++ concat (map clause.vars (omap (fun k => c !! k) kinds))).
Proof.
  revert a p. induction kinds as [|k kinds IH]; intros a p; simpl.
  - by rewrite append_nil_r, app_nil_r.
  - destruct (c !! k) as [f|]; simpl; [|apply IH].
    rewrite IH. simpl. by rewrite append_assoc, <- app_assoc.
Qed.

Lemma insert_clause_INSERT g s front v :
  insert_clause g s (front ++ [v]) !! clause.INSERT
  = Some (clause.generate g clause.INSERT (insert_args v)).
Proof.
  unfold insert_clause, clause.Set_. rewrite lookup_insert_ne by done.
  rewrite foldl_app. simpl. unfold clause.Set_. by rewrite lookup_insert_eq.
Qed.

Lemma insert_clause_VALUES g s values :
  insert_clause g s values !! clause.VALUES
  = Some (clause.generate g clause.VALUES (map record_arg values)).
Proof. unfold insert_clause, clause.Set_. by rewrite lookup_insert_eq. Qed.

(** The statement of an [Insert] with at least one value. *)
Lemma insert_statement_last g s front v :
  insert_statement g s (front ++ [v])
  = (clause.render g clause.INSERT (insert_args v)
     +:+ clause.render g clause.VALUES (map record_arg (front ++ [v])),
     flat_map items_of (map record_arg (front ++ [v]))).
Proof.
  unfold insert_statement, clause.Build. rewrite Build_from.
  cbn [omap list_omap]. rewrite insert_clause_INSERT, insert_clause_VALUES.
  simpl. by rewrite append_nil_r, app_nil_r.
Qed.

(** C6: [Build] returns the stored fragments of the requested kinds one
    after the other in the order of the request, and their parameters in
    the same order; the order in which the kinds were set plays no part,
    and a kind that was never set is skipped. *)
Theorem Build_in_requested_order (c : gmap clause.Type_ clause.Fragment)
        (kinds : list clause.Type_) :
  clause.Build c kinds
  = (join (map clause.sql (omap (fun k => c !! k) kinds)),
     concat (map clause.vars (omap (fun k => c !! k) kinds))).
Proof. unfold clause.Build. by rewrite Build_from. Qed.

Example Build_select_where :
  clause.Build
    (clause.Set_ sample_generators
       (clause.Set_ sample_generators ∅ clause.WHERE [VInt 18])
       clause.SELECT [VString "User"; session.strings ["Name"; "Age"]])
    [clause.SELECT; clause.WHERE; clause.ORDERBY; clause.LIMIT]
  = ("SELECT Name,Age FROM User WHERE Age > ? ", [VInt 18]).
Proof. reflexivity. Qed.

(** C7: setting a kind twice keeps the second fragment only: the clause set
    is the one the second [Set] alone gives and holds under the kind the
    fragment generated from the second arguments.  So the statement
    [Insert] hands to the executor begins with the INSERT fragment rendered
    from the table name and the columns of the last value, whatever the
    types of the values before it. *)
Theorem Set_last_write_wins g ex (c : gmap clause.Type_ clause.Fragment) k a b s front v :
  registry_ok (session.registry s) ->
  Forall modelable (front ++ [v]) ->
  clause.Set_ g (clause.Set_ g c k a) k b = clause.Set_ g c k b /\
  clause.Set_ g (clause.Set_ g c k a) k b !! k = Some (clause.generate g k b) /\
  exists vars,
    session.calls (session.Insert g ex (front ++ [v]) s).2
    = session.calls s
      ++ [session.EvExec
            (clause.render g clause.INSERT (insert_args v)
             +:+ clause.render g clause.VALUES (map record_arg (front ++ [v])))
            vars].
Proof.
  intros Hok Hall. split; [|split].
  - unfold clause.Set_. apply insert_insert_eq.
  - unfold clause.Set_. apply lookup_insert_eq.
  - destruct (Insert_spec g ex (front ++ [v]) s Hok Hall) as (s' & HI & Hcalls & Hcl).
    exists (insert_statement g s (front ++ [v])).2.
    rewrite HI. simpl. rewrite Hcalls. by rewrite insert_statement_last.
Qed.

Lemma modelable_Account fs : modelable (VStruct Account fs).
Proof. exists Account. split; [reflexivity|]. vm_compute. discriminate. Qed.

Lemma Set_last_write_wins_witness :
  clause.Set_ naming_generators
    (clause.Set_ naming_generators ∅ clause.INSERT (insert_args Tom))
    clause.INSERT (insert_args Acme)
  = clause.Set_ naming_generators ∅ clause.INSERT (insert_args Acme) /\
  clause.Set_ naming_generators
    (clause.Set_ naming_generators ∅ clause.INSERT (insert_args Tom))
    clause.INSERT (insert_args Acme) !! clause.INSERT
  = Some {| clause.sql := "INSERT INTO Account (Id,Owner) "; clause.vars := [] |} /\
  exists vars,
    session.calls
      (session.Insert naming_generators (executor_with (no_rows None)) ([Tom] ++ [Acme])
         fresh_session).2
    = session.calls fresh_session
      ++ [session.EvExec "INSERT INTO Account (Id,Owner) VALUES (?,?), (?,?)" vars].
Proof.
  apply (Set_last_write_wins naming_generators (executor_with (no_rows None)) ∅
           clause.INSERT (insert_args Tom) (insert_args Acme) fresh_session [Tom] Acme).
  - apply registry_ok_empty.
  - repeat constructor; [apply modelable_User | apply modelable_Account].
Defined.

(** The whole statement of an [Insert] of two records of different types:
    the table and the columns are those of the last record, the
    parameters those of both. *)
Example Insert_mixed_types :
  session.calls
    (session.Insert naming_generators (executor_with (no_rows None)) [Tom; Acme]
       fresh_session).2
  = [session.EvExec "INSERT INTO Account (Id,Owner) VALUES (?,?), (?,?)"
       [VString "Tom"; VInt 18; VInt 1; VString "acme"]].
Proof. reflexivity. Qed.

(** A pointer to a record is stored as the record is. *)
Example Insert_through_pointer :
  session.calls
    (session.Insert naming_generators (executor_with (no_rows None))
       [VPtr (TStruct User) (Some Tom)] fresh_session).2
  = [session.EvExec "INSERT INTO User (Name,Age) VALUES (?,?)" [VString "Tom"; VInt 18]].
Proof. reflexivity. Qed.

(** The statement of a [Find] names the columns of the element type. *)
Example Find_names_columns :
  session.calls
    (session.after
       (session.Find naming_generators (executor_with (no_rows None))
          (dest_ptr User None) fresh_session))
  = [session.EvQuery "SELECT Name,Age FROM User " [];
     session.EvNext; session.EvClose].
Proof. reflexivity. Qed.

(** ** Record values *)

Lemma field_index_lookup name fields i f :
  reflect.field_index name fields = Some (i, f) -> fields !! i = Some f.
Proof.
  revert i. induction fields as [|f0 rest IH]; simpl; intros i H; [done|].
  destruct (decide (fd_name f0 = name)); [by inversion H|].
  destruct (reflect.field_index name rest) as [[j g]|] eqn:Hr; [|done].
  inversion H; subst. simpl. by apply IH.
Qed.

Lemma omap_length_all {A B} (f : A -> option B) (l : list A) :
  Forall (fun a => is_Some (f a)) l -> length (omap f l) = length l.
Proof.
  induction 1 as [|a l [b Hb] _ IH]; simpl; [done|]. rewrite Hb. simpl. f_equal. exact IH.
Qed.

(** A record of type [sd] yields one value per mappable field. *)
Lemma RecordValues_length sd v :
  is_record sd v ->
  length (schema.RecordValues (schema.Parse sd) v) = length (mapped sd).
Proof.
  intros (_ & fs & Hv & Hlen). unfold schema.RecordValues.
  rewrite Parse_FieldNames, omap_length_all; [by rewrite length_map|].
  apply Forall_forall. intros name Hin.
  apply mapped_names_in in Hin as [_ Hin].
  destruct (field_index_Some _ _ Hin) as (i & f & Hi & _).
  rewrite Hv. simpl. rewrite Hi.
  apply lookup_lt_is_Some. rewrite Hlen.
  apply field_index_lookup in Hi. by eapply lookup_lt_Some.
Qed.

Lemma flat_map_length_const {A B} (f : A -> list B) (l : list A) (k : nat) :
  Forall (fun a => length (f a) = k) l -> length (flat_map f l) = length l * k.
Proof.
  induction 1 as [|a l Ha _ IH]; simpl; [done|]. by rewrite length_app, Ha, IH.
Qed.

Lemma flat_map_record_args sd values :
  Forall (is_record sd) values ->
  flat_map items_of (map record_arg values)
  = flat_map (schema.RecordValues (schema.Parse sd)) values.
Proof.
  induction 1 as [|v values [Hty _] _ IH]; simpl; [done|].
  rewrite IH. unfold struct_type. by rewrite Hty.
Qed.

Lemma is_record_modelable sd v : mapped sd <> [] -> is_record sd v -> modelable v.
Proof. intros Hne [Hty _]. by exists sd. Qed.

(** C3: a batch [Insert] of [N] records of one type with [K] mappable
    fields makes one call of the executor, an [Exec], whose parameters are
    the records' values, record after record in input order and within a
    record in column order, [N * K] in all. *)
Theorem Insert_one_statement g ex s sd values :
  registry_ok (session.registry s) ->
  mapped sd <> [] ->
  values <> [] ->
  Forall (is_record sd) values ->
  exists sql vars,
    session.calls (session.Insert g ex values s).2
    = session.calls s ++ [session.EvExec sql vars] /\
    vars = flat_map (schema.RecordValues (schema.Parse sd)) values /\
    length vars = length values * length (schema.Fields (schema.Parse sd)).
Proof.
  intros Hok Hne Hnil Hall.
  assert (Hmod : Forall modelable values).
  { eapply Forall_impl; [exact Hall|]. intros v. by apply is_record_modelable. }
  destruct (Insert_spec g ex values s Hok Hmod) as (s' & -> & Hcalls & _).
  exists (insert_statement g s values).1, (insert_statement g s values).2.
  split; [done|].
  assert (Hvars : (insert_statement g s values).2
                  = flat_map (schema.RecordValues (schema.Parse sd)) values).
  { destruct (exists_last Hnil) as (front & v & ->).
    rewrite insert_statement_last. by apply flat_map_record_args. }
  split; [done|]. rewrite Hvars, Parse_Fields, length_map.
  apply flat_map_length_const.
  eapply Forall_impl; [exact Hall|]. intros v. apply RecordValues_length.
Qed.

Lemma is_record_User a b c : is_record User (VStruct User [a; b; c]).
Proof. split; [reflexivity|]. by exists [a; b; c]. Qed.

Lemma Insert_one_statement_witness :
  exists sql vars,
    session.calls
      (session.Insert sample_generators (executor_with (no_rows None)) [Tom; Sam]
         fresh_session).2
    = session.calls fresh_session ++ [session.EvExec sql vars] /\
    vars = flat_map (schema.RecordValues (schema.Parse User)) [Tom; Sam] /\
    length vars = length [Tom; Sam] * length (schema.Fields (schema.Parse User)).
Proof.
  apply (Insert_one_statement sample_generators (executor_with (no_rows None))
           fresh_session User [Tom; Sam]).
  - apply registry_ok_empty.
  - vm_compute. discriminate.
  - discriminate.
  - repeat constructor; apply is_record_User.
Defined.

Example Insert_two_users :
  session.calls
    (session.Insert sample_generators (executor_with (no_rows None)) [Tom; Sam]
       fresh_session).2
  = [session.EvExec "INSERT INTO User (Name,Age) VALUES (?,?) "
       [VString "Tom"; VInt 18; VString "Sam"; VInt 25]].
Proof. reflexivity. Qed.

(** ** The registry, continued *)

(** C9: the schema [Model] returns for a struct type has one field per
    mappable field of the type, in declaration order, and a later call for
    a value of the same type returns the same schema from the cache and
    leaves the registry, the count of derivations included, as it was. *)
Theorem Model_cached_schema r v v' sd :
  registry_ok r ->
  mapped sd <> [] ->
  schema.struct_of (type_of v) = Some sd ->
  schema.struct_of (type_of v') = Some sd ->
  exists t r1,
    schema.Model r v = (r1, inr t) /\
    map schema.FieldName (schema.Fields t) = map fd_name (List.filter schema.mappable (sd_fields sd)) /\
    length (schema.Fields t) = length (List.filter schema.mappable (sd_fields sd)) /\
    schema.Model r1 v' = (r1, inr t).
Proof.
  intros Hok Hne Hv Hv'.
  destruct (Model_struct r v sd Hok Hne Hv) as (r1 & HM & _ & Hc).
  exists (schema.Parse sd), r1. split; [done|].
  rewrite Parse_Fields, map_map, length_map. simpl.
  repeat split. by apply Model_cached with sd.
Qed.

Lemma Model_cached_schema_witness :
  exists t r1,
    schema.Model {| schema.cache := ∅; schema.derived := 0 |} Tom = (r1, inr t) /\
    map schema.FieldName (schema.Fields t) = map fd_name (List.filter schema.mappable (sd_fields User)) /\
    length (schema.Fields t) = length (List.filter schema.mappable (sd_fields User)) /\
    schema.Model r1 Sam = (r1, inr t).
Proof.
  apply (Model_cached_schema {| schema.cache := ∅; schema.derived := 0 |} Tom Sam User).
  - apply registry_ok_empty.
  - vm_compute. discriminate.
  - reflexivity.
  - reflexivity.
Defined.

Example Model_User_fields :
  map schema.FieldName
    (schema.Fields (schema.Parse User)) = ["Name"; "Age"].
Proof. reflexivity. Qed.

(** ** Positional scanning *)

Lemma field_index_middle pre f suf :
  fd_name f ∉ map fd_name pre ->
  reflect.field_index (fd_name f) (pre ++ f :: suf) = Some (length pre, f).
Proof.
  induction pre as [|p pre IH]; simpl; intros Hnin.
  - by rewrite decide_True.
  - apply not_elem_of_cons in Hnin as [Hne Hnin].
    rewrite decide_False by done. by rewrite IH.
Qed.

Lemma NoDup_names_middle pre f suf :
  NoDup (map fd_name (pre ++ f :: suf)) -> fd_name f ∉ map fd_name pre.
Proof.
  rewrite map_app. intros Hnd Hin.
  apply NoDup_app in Hnd as (_ & Hdisj & _).
  apply (Hdisj _ Hin). simpl. apply elem_of_cons. by left.
Qed.

Lemma mappable_exported f : schema.mappable f = true -> is_exported (fd_name f) = true.
Proof. unfold schema.mappable. by intros [? _]%andb_true_iff. Qed.

Lemma field_ptrs_positions sd pre suf :
  sd_fields sd = pre ++ suf ->
  NoDup (map fd_name (sd_fields sd)) ->
  session.field_ptrs (reflect.NewElem (TStruct sd)) (map fd_name (List.filter schema.mappable suf))
  = Ok (ptrs_from (length pre) suf).
Proof.
  revert pre. induction suf as [|f suf IH]; intros pre Hsd Hnd; simpl; [done|].
  assert (Hsd' : sd_fields sd = (pre ++ [f]) ++ suf) by by rewrite <- app_assoc.
  specialize (IH (pre ++ [f]) Hsd' Hnd).
  rewrite length_app, Nat.add_1_r in IH.
  destruct (schema.mappable f) eqn:Hm; [|done].
  simpl. unfold reflect.FieldByName. simpl. rewrite Hsd.
  rewrite field_index_middle by (apply NoDup_names_middle with suf; by rewrite <- Hsd).
  simpl. unfold reflect.AddrInterface. simpl.
  rewrite (mappable_exported _ Hm). simpl. by rewrite IH.
Qed.

Lemma scan_cols_fill sd front fields cols v :
  session.scan_cols cols (ptrs_from (length front) fields)
    (VStruct sd (front ++ map (fun f => zero_kind (fd_kind f)) fields))
  = inr v ->
  v = VStruct sd (front ++ fill fields cols) /\
  length cols = length (List.filter schema.mappable fields).
Proof.
  revert front cols. induction fields as [|f fields IH]; intros front cols; simpl.
  - destruct cols; [|done]. intros [= <-]. done.
  - destruct (schema.mappable f) eqn:Hm.
    + destruct cols as [|c cols]; [done|]. simpl.
      destruct (session.assignable (fd_kind f) c); [|done].
      rewrite (insert_app_r_alt front _ (length front)) by lia.
      rewrite Nat.sub_diag. simpl.
      rewrite (cons_middle c front), (cons_middle c front (fill fields cols)).
      specialize (IH (front ++ [c]) cols).
      rewrite length_app, Nat.add_1_r, <- !app_assoc in IH.
      intros H. apply IH in H as [-> ->]. done.
    + rewrite (cons_middle _ front), (cons_middle _ front (fill fields cols)).
      specialize (IH (front ++ [zero_kind (fd_kind f)]) cols).
      rewrite length_app, Nat.add_1_r, <- !app_assoc in IH.
      intros H. by apply IH in H.
Qed.

(** A row that scans is a data row with one column per mappable field, and
    the element read from it holds those columns in column order. *)
Lemma scan_row_filled sd row v :
  NoDup (map fd_name (sd_fields sd)) ->
  session.scan_row (TStruct sd) (map fd_name (mapped sd)) row = Ok (inr v) ->
  exists cols,
    row = session.RowData cols /\
    v = VStruct sd (fill (sd_fields sd) cols) /\
    length cols = length (mapped sd).
Proof.
  intros Hnd. unfold session.scan_row, mapped.
  rewrite (field_ptrs_positions sd [] (sd_fields sd)) by done. simpl.
  destruct row as [cols|e]; simpl; [|done].
  intros [= H]. apply (scan_cols_fill sd [] (sd_fields sd)) in H as [-> Hlen]. eauto.
Qed.

Lemma read_back sd pre suf front cols :
  sd_fields sd = pre ++ suf ->
  NoDup (map fd_name (sd_fields sd)) ->
  length front = length pre ->
  length cols = length (List.filter schema.mappable suf) ->
  omap (schema.field_value (VStruct sd (front ++ fill suf cols)))
       (map fd_name (List.filter schema.mappable suf))
  = cols.
Proof.
  revert pre front cols.
  induction suf as [|f suf IH]; intros pre front cols Hsd Hnd Hfront Hlen.
  - destruct cols; [done|]. simpl in Hlen. lia.
  - assert (Hsd' : sd_fields sd = (pre ++ [f]) ++ suf) by by rewrite <- app_assoc.
    simpl in *. destruct (schema.mappable f) eqn:Hm.
    + destruct cols as [|c cols]; simpl in Hlen; [lia|].
      specialize (IH (pre ++ [f]) (front ++ [c]) cols Hsd' Hnd).
      rewrite !length_app, <- app_assoc in IH. simpl in IH.
      simpl. rewrite Hsd.
      rewrite field_index_middle by (apply NoDup_names_middle with suf; by rewrite <- Hsd).
      rewrite <- Hfront, list_lookup_middle by done. simpl.
      f_equal. apply IH; lia.
    + specialize (IH (pre ++ [f]) (front ++ [zero_kind (fd_kind f)]) cols Hsd' Hnd).
      rewrite !length_app, <- app_assoc in IH. simpl in IH.
      apply IH; lia.
Qed.

(** Reading an element back in column order gives the columns it was
    filled from. *)
Lemma RecordValues_fill sd cols :
  NoDup (map fd_name (sd_fields sd)) ->
  length cols = length (mapped sd) ->
  schema.RecordValues (schema.Parse sd) (VStruct sd (fill (sd_fields sd) cols)) = cols.
Proof.
  intros Hnd Hlen. unfold schema.RecordValues. rewrite Parse_FieldNames. simpl.
  by apply (read_back sd [] (sd_fields sd) []).
Qed.

(** A loop that ends without an error has scanned every row. *)
Lemma find_rows_success sd rows close items d evs :
  session.find_rows (TStruct sd) (map fd_name (mapped sd)) rows close (dest_slice sd items)
  = (session.Returned None, d, evs) ->
  exists elems,
    Forall2 (fun row v =>
               session.scan_row (TStruct sd) (map fd_name (mapped sd)) row = Ok (inr v))
            rows elems /\
    reflect.v_val d = VSlice (TStruct sd) (appended items elems).
Proof.
  revert items d evs. induction rows as [|row rows IH]; intros items d evs; simpl.
  - intros [= _ <- _]. exists []. by split; [constructor|].
  - destruct (scan_row_ok sd row) as [[sErr|dest] Hrow]; rewrite Hrow; simpl; [done|].
    change {| reflect.v_val := VSlice (TStruct sd) (Some (default [] items ++ [dest]));
              reflect.v_typ := TSlice (TStruct sd);
              reflect.v_addr := true; reflect.v_ro := false |}
      with (dest_slice sd (Some (default [] items ++ [dest]))).
    destruct (session.find_rows _ _ rows _ _) as [[o d'] evs'] eqn:Hrec.
    intros [= -> -> _].
    destruct (IH _ _ _ Hrec) as (elems & Hall & Hd).
    exists (dest :: elems). split; [by constructor|].
    by rewrite Hd, appended_snoc.
Qed.

(** Rows that all scan are data rows, and their elements are those filled
    from their columns. *)
Lemma scanned_rows_filled sd rows elems :
  NoDup (map fd_name (sd_fields sd)) ->
  Forall2 (fun row v =>
             session.scan_row (TStruct sd) (map fd_name (mapped sd)) row = Ok (inr v))
          rows elems ->
  exists colss,
    rows = map session.RowData colss /\
    elems = map (fun cols => VStruct sd (fill (sd_fields sd) cols)) colss /\
    Forall (fun cols =>
              schema.RecordValues (schema.Parse sd) (VStruct sd (fill (sd_fields sd) cols))
              = cols) colss.
Proof.
  intros Hnd Hall.
  induction Hall as [|row v rows elems Hrow _ (colss & -> & -> & Hread)].
  - by exists [].
  - apply scan_row_filled in Hrow as (cols & -> & -> & Hlen); [|done].
    exists (cols :: colss). repeat split. constructor; [|done].
    by apply RecordValues_fill.
Qed.

(** C8: in a [Find] that succeeds the registry is asked for the schema of
    the zero value of the element type, whatever the destination holds,
    and the statement queried is the one built from that schema; every row
    of the cursor is a data row, the element made from it holds the row's
    columns in the mappable fields in column order (reading the element
    back in column order gives the row), and the destination is what it was
    followed by these elements in the order of the rows. *)
Theorem Find_fills_in_row_order g ex s sd items :
  registry_ok (session.registry s) ->
  mapped sd <> [] ->
  NoDup (map fd_name (sd_fields sd)) ->
  session.outcome (session.Find g ex (dest_ptr sd items) s) = session.Returned None ->
  session.registry (session.after (session.Find g ex (dest_ptr sd items) s))
  = (schema.Model (session.registry s) (zero (TStruct sd))).1 /\
  (exists cursor_calls,
     session.calls (session.after (session.Find g ex (dest_ptr sd items) s))
     = session.calls s
       ++ session.EvQuery (select_statement g s sd).1 (select_statement g s sd).2
          :: cursor_calls) /\
  exists rows colss,
    session.QueryRows ex (select_statement g s sd).1 (select_statement g s sd).2
    = session.QueryOpened rows /\
    session.pending rows = map session.RowData colss /\
    session.destination (session.Find g ex (dest_ptr sd items) s)
    = Some (VSlice (TStruct sd)
              (appended items (map (fun cols => VStruct sd (fill (sd_fields sd) cols)) colss))) /\
    Forall (fun cols =>
              schema.RecordValues (schema.Parse sd) (VStruct sd (fill (sd_fields sd) cols))
              = cols) colss.
Proof.
  intros Hok Hne Hnd. rewrite Find_dest by done.
  destruct (session.QueryRows ex _ _) as [err|rows] eqn:Hq; [done|].
  destruct (session.find_rows _ _ _ _ _) as [[o d] evs] eqn:Hloop. simpl.
  intros ->. split; [done|]. split.
  { exists evs. by rewrite <- app_assoc. }
  apply find_rows_success in Hloop as (elems & Hall & ->).
  destruct (scanned_rows_filled sd _ _ Hnd Hall) as (colss & Hrows & -> & Hread).
  by exists rows, colss.
Qed.

Lemma Find_fills_in_row_order_witness :
  session.registry
    (session.after
       (session.Find sample_generators (executor_with (two_rows None))
          (dest_ptr User (Some [Tom])) fresh_session))
  = (schema.Model (session.registry fresh_session) (zero (TStruct User))).1 /\
  (exists cursor_calls,
     session.calls
       (session.after
          (session.Find sample_generators (executor_with (two_rows None))
             (dest_ptr User (Some [Tom])) fresh_session))
     = session.calls fresh_session
       ++ session.EvQuery (select_statement sample_generators fresh_session User).1
            (select_statement sample_generators fresh_session User).2
          :: cursor_calls) /\
  exists rows colss,
    session.QueryRows (executor_with (two_rows None))
      (select_statement sample_generators fresh_session User).1
      (select_statement sample_generators fresh_session User).2
    = session.QueryOpened rows /\
    session.pending rows = map session.RowData colss /\
    session.destination
      (session.Find sample_generators (executor_with (two_rows None))
         (dest_ptr User (Some [Tom])) fresh_session)
    = Some (VSlice (TStruct User)
              (appended (Some [Tom])
                 (map (fun cols => VStruct User (fill (sd_fields User) cols)) colss))) /\
    Forall (fun cols =>
              schema.RecordValues (schema.Parse User)
                (VStruct User (fill (sd_fields User) cols))
              = cols) colss.
Proof.
  apply (Find_fills_in_row_order sample_generators (executor_with (two_rows None))
           fresh_session User (Some [Tom])).
  - apply registry_ok_empty.
  - vm_compute. discriminate.
  - compute_done.
  - reflexivity.
Defined.

Example Find_two_users :
  session.destination
    (session.Find sample_generators (executor_with (two_rows None))
       (dest_ptr User (Some [Tom])) fresh_session)
  = Some (VSlice (TStruct User)
            (Some [Tom;
                   VStruct User [VString "Tom"; VInt 0; VInt 18];
                   VStruct User [VString "Sam"; VInt 0; VInt 25]])).
Proof. reflexivity. Qed.


(** * Further properties of the record session *)

Lemma Find_by_value g ex s sd items :
  registry_ok (session.registry s) ->
  mapped sd <> [] ->
  session.Find g ex (VSlice (TStruct sd) items) s
  = match session.QueryRows ex (select_statement g s sd).1 (select_statement g s sd).2 with
    | session.QueryFailed err =>
        {| session.outcome := session.Returned (Some err);
           session.after := querying g s sd;
           session.destination := Some (VSlice (TStruct sd) items) |}
    | session.QueryOpened rows =>
        let '(o, d, evs) :=
          session.find_rows (TStruct sd) (map fd_name (mapped sd)) (session.pending rows)
            (session.close_err rows) (slice_value sd items) in
        {| session.outcome := o;
           session.after := session.with_calls (querying g s sd) evs;
           session.destination := Some (reflect.v_val d) |}
    end.
Proof.
  intros Hok Hne.
  destruct (Model_struct (session.registry s) (zero (TStruct sd)) sd Hok Hne eq_refl)
    as (r' & HM & _ & _).
  unfold session.Find, querying, select_statement, select_clause.
  simpl in HM |- *. unfold session.Model. rewrite !HM. simpl.
  destruct (clause.Build _ _) as [sql vars]. simpl.
  by destruct (session.QueryRows ex sql vars).
Qed.

(** X1: when [QueryRows] fails, [Find] returns that error; the statement
    was handed to the executor once, no cursor call was made, and the
    destination is as it was. *)
Theorem Find_query_error g ex s sd items err :
  registry_ok (session.registry s) ->
  mapped sd <> [] ->
  session.QueryRows ex (select_statement g s sd).1 (select_statement g s sd).2
  = session.QueryFailed err ->
  let r := session.Find g ex (dest_ptr sd items) s in
  session.outcome r = session.Returned (Some err) /\
  session.destination r = Some (VSlice (TStruct sd) items) /\
  session.calls (session.after r)
  = session.calls s
    ++ [session.EvQuery (select_statement g s sd).1 (select_statement g s sd).2].
Proof.
  intros Hok Hne Hq r. subst r. by rewrite Find_dest, Hq.
Qed.

Lemma Find_query_error_witness :
  let ex := {| session.Exec := fun _ _ => session.ExecDone 0 None;
               session.QueryRows := fun _ _ => session.QueryFailed (ExecutorError "down") |} in
  let r := session.Find sample_generators ex (dest_ptr User (Some [Tom])) fresh_session in
  session.outcome r = session.Returned (Some (ExecutorError "down")) /\
  session.destination r = Some (VSlice (TStruct User) (Some [Tom])) /\
  session.calls (session.after r)
  = session.calls fresh_session
    ++ [session.EvQuery (select_statement sample_generators fresh_session User).1
          (select_statement sample_generators fresh_session User).2].
Proof.
  apply (Find_query_error sample_generators
           {| session.Exec := fun _ _ => session.ExecDone 0 None;
              session.QueryRows := fun _ _ => session.QueryFailed (ExecutorError "down") |}
           fresh_session User (Some [Tom]) (ExecutorError "down")).
  - apply registry_ok_empty.
  - vm_compute. discriminate.
  - reflexivity.
Defined.

(** X2: [Insert] hands one statement to [Exec] and returns by its answer:
    a count of 0 with the error when [Exec] fails, and otherwise the count
    and the error of [RowsAffected] as they are. *)
Theorem Insert_returns_Exec_result g ex s values :
  registry_ok (session.registry s) ->
  Forall modelable values ->
  (session.Insert g ex values s).1
  = match session.Exec ex (insert_statement g s values).1 (insert_statement g s values).2 with
    | session.ExecFailed err => session.Returned (0%Z, Some err)
    | session.ExecDone n err => session.Returned (n, err)
    end /\
  session.calls (session.Insert g ex values s).2
  = session.calls s
    ++ [session.EvExec (insert_statement g s values).1 (insert_statement g s values).2].
Proof.
  intros Hok Hall.
  by destruct (Insert_spec g ex values s Hok Hall) as (s' & -> & Hcalls & _).
Qed.

Lemma Insert_returns_Exec_result_witness :
  let ex := {| session.Exec := fun _ _ => session.ExecFailed (ExecutorError "dup");
               session.QueryRows := fun _ _ => session.QueryFailed (ExecutorError "down") |} in
  (session.Insert sample_generators ex [Tom; Sam] fresh_session).1
  = session.Returned (0%Z, Some (ExecutorError "dup")) /\
  session.calls (session.Insert sample_generators ex [Tom; Sam] fresh_session).2
  = session.calls fresh_session
    ++ [session.EvExec (insert_statement sample_generators fresh_session [Tom; Sam]).1
          (insert_statement sample_generators fresh_session [Tom; Sam]).2].
Proof.
  intros ex.
  apply (Insert_returns_Exec_result sample_generators ex fresh_session [Tom; Sam]).
  - apply registry_ok_empty.
  - repeat constructor; apply modelable_User.
Defined.

Lemma find_rows_cursor_calls destType names rows close ds o d evs :
  session.find_rows destType names rows close ds = (o, d, evs) ->
  forallb is_cursor_call evs = true /\
  session.closes evs <= 1 /\
  (session.closes evs = 1 -> o = session.Returned close).
Proof.
  revert ds o d evs. induction rows as [|row rows IH]; intros ds o d evs; simpl.
  - intros [= <- <- <-]. by vm_compute.
  - destruct (session.scan_row destType names row) as [[sErr|dest]|m].
    + intros [= <- <- <-]. vm_compute. repeat split; [lia | discriminate].
    + destruct (reflect.Append ds dest ≫= reflect.Set_ ds) as [ds'|m].
      * destruct (session.find_rows destType names rows close ds') as [[o' d'] evs'] eqn:Hrec.
        intros [= <- <- <-]. by apply IH in Hrec.
      * intros [= <- <- <-]. vm_compute. repeat split; [lia | discriminate].
    + intros [= <- <- <-]. vm_compute. repeat split; [lia | discriminate].
Qed.

(** X3: whatever its argument, the executor and the cursor, [Find] hands at
    most one statement to the executor, a query and never an [Exec], and
    calls [Close] at most once; when [Close] was called, [Find] returned to
    its caller. *)
Theorem Find_one_query_at_most_one_Close g ex values s :
  exists evs,
    session.calls (session.after (session.Find g ex values s)) = session.calls s ++ evs /\
    length (List.filter is_query evs) <= 1 /\
    List.filter is_exec evs = [] /\
    session.closes evs <= 1 /\
    (session.closes evs = 1 ->
     exists e, session.outcome (session.Find g ex values s) = session.Returned e).
Proof.
  assert (Hnone : forall o : session.Outcome (option Error),
             session.calls s = session.calls s ++ [] /\
             length (List.filter is_query []) <= 1 /\
             List.filter is_exec [] = [] /\
             session.closes [] <= 1 /\
             (session.closes [] = 1 -> exists e, o = session.Returned e)).
  { intros o. rewrite app_nil_r. vm_compute. repeat split; [lia | lia | discriminate]. }
  unfold session.Find.
  destruct (reflect.Indirect (reflect.ValueOf values)) as [ds|]; [|by exists []].
  destruct (reflect.Elem (reflect.Type_ ds)) as [destType|m]; simpl; [|by exists []].
  unfold session.Model.
  destruct (schema.Model (session.registry s) (zero destType)) as [r [e|table]]; simpl;
    [by exists []|].
  destruct (clause.Build _ _) as [sql vars].
  destruct (session.QueryRows ex sql vars) as [err|rows]; simpl.
  - exists [session.EvQuery sql vars]. vm_compute. repeat split; [lia | lia | discriminate].
  - destruct (session.find_rows _ _ _ _ _) as [[o d] evs] eqn:Hloop. simpl.
    apply find_rows_cursor_calls in Hloop as (Hcur & Hle & Hret).
    exists (session.EvQuery sql vars :: evs).
    split; [by rewrite <- app_assoc|].
    assert (Hq : List.filter is_query evs = [] /\ List.filter is_exec evs = []).
    { clear Hle Hret. induction evs as [|ev evs IH]; [done|].
      simpl in Hcur. apply andb_true_iff in Hcur as [Hev Hcur].
      destruct (IH Hcur) as [IHq IHe]. by destruct ev. }
    destruct Hq as [Hq He]. simpl. rewrite Hq, He.
    repeat split; [simpl; lia | done |].
    intros H. exists (session.close_err rows). by apply Hret.
Qed.

Lemma find_rows_appends sd names rows close items :
  exists elems,
    reflect.v_val (session.find_rows (TStruct sd) names rows close (dest_slice sd items)).1.2
    = VSlice (TStruct sd) (appended items elems) /\
    length elems <= length rows.
Proof.
  revert items. induction rows as [|row rows IH]; intros items; simpl.
  - exists []. split; [done | simpl; lia].
  - destruct (session.scan_row (TStruct sd) names row) as [[sErr|dest]|m]; simpl;
      try (exists []; split; [done | simpl; lia]).
    change {| reflect.v_val := VSlice (TStruct sd) (Some (default [] items ++ [dest]));
              reflect.v_typ := TSlice (TStruct sd);
              reflect.v_addr := true; reflect.v_ro := false |}
      with (dest_slice sd (Some (default [] items ++ [dest]))).
    destruct (IH (Some (default [] items ++ [dest]))) as (elems & Hd & Hlen).
    destruct (session.find_rows _ _ rows _ _) as [[o d] evs]. simpl in *.
    exists (dest :: elems). rewrite Hd, appended_snoc. split; [done | simpl; lia].
Qed.

(** X4: [Find] only appends.  Whatever the executor and the cursor answer
    and however [Find] ends, the destination holds what it held before,
    in front and in the same order, followed by what was appended. *)
Theorem Find_keeps_existing_elements g ex s sd items :
  registry_ok (session.registry s) ->
  mapped sd <> [] ->
  exists elems,
    session.destination (session.Find g ex (dest_ptr sd items) s)
    = Some (VSlice (TStruct sd) (appended items elems)).
Proof.
  intros Hok Hne. rewrite Find_dest by done.
  destruct (session.QueryRows ex _ _) as [err|rows]; [by exists []|].
  destruct (find_rows_appends sd (map fd_name (mapped sd)) (session.pending rows)
              (session.close_err rows) items) as (elems & Hd & _).
  destruct (session.find_rows _ _ _ _ _) as [[o d] evs]. simpl in *.
  exists elems. by rewrite Hd.
Qed.

Lemma Find_keeps_existing_elements_witness :
  exists elems,
    session.destination
      (session.Find sample_generators (executor_with three_rows_second_fails)
         (dest_ptr User (Some [Sam])) fresh_session)
    = Some (VSlice (TStruct User) (appended (Some [Sam]) elems)).
Proof.
  apply (Find_keeps_existing_elements sample_generators
           (executor_with three_rows_second_fails) fresh_session User (Some [Sam])).
  - apply registry_ok_empty.
  - vm_compute. discriminate.
Defined.

(** X5: a slice handed to [Find] by value, not through a pointer, cannot
    be set: once the first row has been scanned [Find] panics in
    [reflect.Value.Set], and the cursor is not closed. *)
Theorem Find_slice_by_value_panics g ex s sd items rows row rest v :
  registry_ok (session.registry s) ->
  mapped sd <> [] ->
  session.QueryRows ex (select_statement g s sd).1 (select_statement g s sd).2
  = session.QueryOpened rows ->
  session.pending rows = row :: rest ->
  session.scan_row (TStruct sd) (map fd_name (mapped sd)) row = Ok (inr v) ->
  let r := session.Find g ex (VSlice (TStruct sd) items) s in
  session.outcome r
  = session.Panicked "reflect: reflect.Value.Set using unaddressable value" /\
  session.closes (session.calls (session.after r)) = session.closes (session.calls s).
Proof.
  intros Hok Hne Hq Hp Hrow r. subst r.
  rewrite Find_by_value, Hq, Hp by done. simpl. rewrite Hrow. simpl.
  split; [done|]. rewrite !closes_app. unfold session.closes. simpl. lia.
Qed.

Lemma Find_slice_by_value_panics_witness :
  let r := session.Find sample_generators (executor_with (two_rows None))
             (VSlice (TStruct User) (Some [])) fresh_session in
  session.outcome r
  = session.Panicked "reflect: reflect.Value.Set using unaddressable value" /\
  session.closes (session.calls (session.after r)) = session.closes (session.calls fresh_session).
Proof.
  apply (Find_slice_by_value_panics sample_generators (executor_with (two_rows None))
           fresh_session User (Some []) (two_rows None)
           (session.RowData [VString "Tom"; VInt 18])
           [session.RowData [VString "Sam"; VInt 25]]
           (VStruct User [VString "Tom"; VInt 0; VInt 18])).
  - apply registry_ok_empty.
  - vm_compute. discriminate.
  - reflexivity.
  - reflexivity.
  - reflexivity.
Defined.

(** X6: when what the argument of [Find] is, or points to, has a type
    without elements (a scalar, an interface, a struct), and when the
    argument is the nil interface or a nil pointer, [Find] panics at once:
    the session is as it was, so nothing was set in the clause set and no
    statement reached the executor. *)
Theorem Find_panics_on_entry g ex s values :
  from_option elem_less True (indirect_type values) ->
  (exists m, session.outcome (session.Find g ex values s) = session.Panicked m) /\
  session.after (session.Find g ex values s) = s.
Proof.
  intros H. unfold session.Find.
  destruct values as [|z|str|b|sd fs|e items|e [x|]|e items|k e entries|e ch];
    simpl in *; try (by eauto); try done.
  destruct e; simpl in *; try (by eauto); done.
Qed.

Lemma Find_panics_on_entry_witness :
  (exists m,
     session.outcome
       (session.Find sample_generators (executor_with (no_rows None))
          (VPtr (TStruct User) (Some Tom)) fresh_session)
     = session.Panicked m) /\
  session.after
    (session.Find sample_generators (executor_with (no_rows None))
       (VPtr (TStruct User) (Some Tom)) fresh_session)
  = fresh_session.
Proof.
  apply (Find_panics_on_entry sample_generators (executor_with (no_rows None))
           fresh_session (VPtr (TStruct User) (Some Tom))).
  exact I.
Defined.

(** A map of structs and a pointer to an array of structs have an element
    type: on a cursor without rows [Find] queries and returns. *)
Example Find_map_and_array_no_rows :
  session.outcome
    (session.Find sample_generators (executor_with (no_rows None))
       (VMap (TScalar KString) (TStruct User) (Some [])) fresh_session)
  = session.Returned None /\
  session.outcome
    (session.Find sample_generators (executor_with (no_rows None))
       (VPtr (TArray 2 (TStruct User)) (Some (zero (TArray 2 (TStruct User)))))
       fresh_session)
  = session.Returned None.
Proof. split; reflexivity. Qed.

(** X7: [Insert] without values skips its loop and still hands one
    statement to [Exec]: the INSERT fragment left in the clause set by an
    earlier call, if there is one, followed by the VALUES fragment of no
    record, with the parameters of the former only. *)
Theorem Insert_no_values g ex s :
  session.calls (session.Insert g ex [] s).2
  = session.calls s
    ++ [session.EvExec
          (from_option clause.sql "" (session.clause s !! clause.INSERT)
           +:+ clause.render g clause.VALUES [])
          (from_option clause.vars [] (session.clause s !! clause.INSERT))].
Proof.
  unfold session.Insert. simpl. unfold clause.Build. rewrite Build_from.
  cbn [omap list_omap]. unfold clause.Set_.
  rewrite lookup_insert_ne, lookup_insert_eq by done.
  assert (Hl : forall a : string, "" +:+ a = a) by done.
  destruct (session.clause s !! clause.INSERT) as [f|]; simpl;
    rewrite ?Hl, ?append_nil_r, ?app_nil_r; by destruct (session.Exec ex _ _).
Qed.


(** * Package hconfig *)

Lemma apply_options_settings {DataSource} (xs : list (Setting DataSource)) o :
  hconfig.apply_options (map setting_option xs) o
  = Ok {| hconfig.dataSource := default (hconfig.dataSource o) (last (data_sources xs));
          hconfig.useLocal := hconfig.useLocal o || existsb sets_local xs |}.
Proof.
  revert o. induction xs as [|x xs IH]; intros o; simpl.
  - destruct o. simpl. by rewrite orb_false_r.
  - destruct x as [d|]; simpl; rewrite IH; simpl.
    + unfold data_sources. simpl. fold (data_sources xs).
      rewrite last_cons. by destruct (last (data_sources xs)).
    + unfold data_sources. simpl. fold (data_sources xs).
      by rewrite orb_true_r.
Qed.

(** X8: of the options given to [newOptions] the last [WithDataSource]
    decides the data source, a nil one included, and [useLocal] is on when
    a [WithUseLocal] was given at any place; without a data source, or with
    a nil one last, the result is the error. *)
Theorem newOptions_last_data_source_wins {DataSource} (xs : list (Setting DataSource)) :
  hconfig.newOptions (map setting_option xs)
  = Ok match last (data_sources xs) with
       | Some (Some d) =>
           inr {| hconfig.dataSource := Some d;
                  hconfig.useLocal := existsb sets_local xs |}
       | _ => inl "dataSource is nil"
       end.
Proof.
  unfold hconfig.newOptions. rewrite apply_options_settings. simpl.
  by destruct (last (data_sources xs)) as [[d|]|].
Qed.

Example newOptions_two_sources :
  hconfig.newOptions
    [hconfig.WithUseLocal; hconfig.WithDataSource (Some 1); hconfig.WithDataSource (Some 2)]
  = Ok (inr {| hconfig.dataSource := Some 2; hconfig.useLocal := true |}).
Proof. reflexivity. Qed.

Example newOptions_nil_source_last :
  hconfig.newOptions [hconfig.WithDataSource (Some 1); hconfig.WithDataSource None]
  = Ok (inl "dataSource is nil").
Proof. reflexivity. Qed.

Lemma apply_options_panics {DataSource} (opts : list (hconfig.Option DataSource)) o :
  (exists m, hconfig.apply_options opts o = Panic m) <-> None ∈ opts.
Proof.
  revert o. induction opts as [|opt opts IH]; intros o; simpl.
  - split; [by intros [m H] | by intros H%elem_of_nil].
  - destruct opt as [f|].
    + rewrite IH. split; [by right | by intros [H|H]%elem_of_cons].
    + split; [by left | by eauto].
Qed.

(** X9: [newOptions] panics exactly when one of the options is a nil
    function; otherwise it returns the error ["dataSource is nil"] or
    options whose data source is not nil, never options without one. *)
Theorem newOptions_panics_iff_nil_option {DataSource}
        (opts : list (hconfig.Option DataSource)) :
  ((exists m, hconfig.newOptions opts = Panic m) <-> None ∈ opts) /\
  (forall r, hconfig.newOptions opts = Ok r ->
             r = inl "dataSource is nil" \/
             exists o d, r = inr o /\ hconfig.dataSource o = Some d).
Proof.
  unfold hconfig.newOptions. split.
  - rewrite <- (apply_options_panics opts
                  {| hconfig.dataSource := None; hconfig.useLocal := false |}).
    destruct (hconfig.apply_options opts _) as [o|m]; simpl.
    + split; intros [m H]; [|done]. by destruct (hconfig.dataSource o).
    + split; by eauto.
  - intros r. destruct (hconfig.apply_options opts _) as [o|m]; simpl; [|done].
    destruct (hconfig.dataSource o) as [d|] eqn:Hd; intros [= <-]; [right | by left].
    by exists o, d.
Qed.

(** * Package log *)

(** X10: on every goroutine [getLogHint] gives back the hint last set there
    by [SetLogHint], the empty hint included, and setting the hint of one
    goroutine leaves the hints of the others as they were. *)
Theorem getLogHint_SetLogHint (i j : Z) (hint : string) (logCtx : gmap Z string) :
  log.getLogHint i (log.SetLogHint i hint logCtx) = hint /\
  (i <> j -> log.getLogHint j (log.SetLogHint i hint logCtx) = log.getLogHint j logCtx).
Proof.
  unfold log.getLogHint, log.SetLogHint. split.
  - destruct (decide (hint = "")) as [->|Hne].
    + by rewrite lookup_delete_eq.
    + by rewrite lookup_insert_eq.
  - intros Hij. destruct (decide (hint = "")).
    + by rewrite lookup_delete_ne.
    + by rewrite lookup_insert_ne.
Qed.

Lemma getLogHint_SetLogHint_witness :
  log.getLogHint 7 (log.SetLogHint 7 "" {[ 7%Z := "req-1" ]}) = "" /\
  (7%Z <> 8%Z ->
   log.getLogHint 8 (log.SetLogHint 7 "" {[ 7%Z := "req-1" ]})
   = log.getLogHint 8 {[ 7%Z := "req-1" ]}).
Proof. apply (getLogHint_SetLogHint 7 8 "" {[ 7%Z := "req-1" ]}). Defined.

(** X11: [SetLogHint] never stores an empty hint: a map without empty hints
    stays so, and setting the empty hint removes the entry of the goroutine
    instead, so the map does not keep entries of goroutines that cleared
    their hint. *)
Theorem SetLogHint_keeps_hints_nonempty (i : Z) (hint : string) (logCtx : gmap Z string) :
  hints_nonempty logCtx ->
  hints_nonempty (log.SetLogHint i hint logCtx) /\
  (hint = "" -> log.SetLogHint i hint logCtx !! i = None) /\
  (forall j, log.getLogHint j (log.SetLogHint i hint logCtx) = ""
             <-> log.SetLogHint i hint logCtx !! j = None).
Proof.
  intros Hinv.
  assert (Hinv' : hints_nonempty (log.SetLogHint i hint logCtx)).
  { unfold log.SetLogHint. intros j h.
    destruct (decide (hint = "")) as [->|Hne].
    - rewrite lookup_delete. case_decide; [done | apply Hinv].
    - rewrite lookup_insert. case_decide; [by intros [= <-] | apply Hinv]. }
  split; [done|]. split.
  - intros ->. unfold log.SetLogHint. simpl. by rewrite lookup_delete_eq.
  - intros j. unfold log.getLogHint.
    destruct (log.SetLogHint i hint logCtx !! j) as [h|] eqn:Hj; simpl; [|done].
    split; [|done]. intros ->. by destruct (Hinv' _ _ Hj).
Qed.

Lemma SetLogHint_keeps_hints_nonempty_witness :
  hints_nonempty (log.SetLogHint 7 "" {[ 7%Z := "req-1" ]}) /\
  ("" = "" -> log.SetLogHint 7 "" {[ 7%Z := "req-1" ]} !! 7%Z = None) /\
  (forall j, log.getLogHint j (log.SetLogHint 7 "" {[ 7%Z := "req-1" ]}) = ""
             <-> log.SetLogHint 7 "" {[ 7%Z := "req-1" ]} !! j = None).
Proof.
  apply (SetLogHint_keeps_hints_nonempty 7 "" {[ 7%Z := "req-1" ]}).
  intros j h. rewrite lookup_singleton. case_decide; [by intros [= <-] | done].
Defined.

(** X12: a first argument of [write] that is not a string is dropped: the
    format is then the empty string, so the message is the same as for an
    empty format with the same operands. *)
Theorem write_drops_non_string_format {W} Sprintf (l : log.logger W) level first rest w :
  (forall str, first <> VString str) ->
  log.write Sprintf l level (first :: rest) w
  = log.write Sprintf l level (VString "" :: rest) w.
Proof.
  intros Hns. unfold log.write.
  destruct (level <? log.logLevel l)%Z; [done|].
  destruct first; try done. by destruct (Hns s).
Qed.

Lemma write_drops_non_string_format_witness :
  log.write sample_Sprintf (log.newLogger (bounded_writer 80)) 1 [VInt 42; VInt 7] []
  = log.write sample_Sprintf (log.newLogger (bounded_writer 80)) 1 [VString ""; VInt 7] [].
Proof.
  apply (write_drops_non_string_format sample_Sprintf (log.newLogger (bounded_writer 80))
           1%Z (VInt 42) [VInt 7] []).
  discriminate.
Defined.

Lemma logf_panics {W} Sprintf (l : log.logger W) level format args w err :
  log.logf Sprintf l level format args w = Panic err
  <-> (log.logLevel l <= level)%Z /\
      (log.Write (log.logWriter l) level (Sprintf format args) w).1 = Some err.
Proof.
  unfold log.logf, log.write.
  destruct (Z.ltb_spec level (log.logLevel l)) as [Hlt|Hge]; simpl.
  - split; [done | lia].
  - destruct (log.Write _ _ _ _) as [[e|] w']; simpl.
    + split; [by intros [= ->] | by intros [_ [= ->]]].
    + split; [done | by intros [_ ?]].
Qed.

(** X13: [Debugf], [Infof], [Warnf] and [Errorf] panic exactly when the
    level is not under the logger's and the writer fails on the formatted
    message, and then with the writer's error; the error of [write] for a
    call without arguments can never be the cause. *)
Theorem Debugf_panics_iff_Write_fails {W} Sprintf LevelDebug LevelInfo LevelWarn LevelError
        (l : log.logger W) format args w err :
  (log.Debugf Sprintf LevelDebug l format args w = Panic err
   <-> (log.logLevel l <= LevelDebug)%Z /\
       (log.Write (log.logWriter l) LevelDebug (Sprintf format args) w).1 = Some err) /\
  (log.Infof Sprintf LevelInfo l format args w = Panic err
   <-> (log.logLevel l <= LevelInfo)%Z /\
       (log.Write (log.logWriter l) LevelInfo (Sprintf format args) w).1 = Some err) /\
  (log.Warnf Sprintf LevelWarn l format args w = Panic err
   <-> (log.logLevel l <= LevelWarn)%Z /\
       (log.Write (log.logWriter l) LevelWarn (Sprintf format args) w).1 = Some err) /\
  (log.Errorf Sprintf LevelError l format args w = Panic err
   <-> (log.logLevel l <= LevelError)%Z /\
       (log.Write (log.logWriter l) LevelError (Sprintf format args) w).1 = Some err).
Proof. split; [|split; [|split]]; apply logf_panics. Qed.

(** X14: on the logger [newLogger] makes, whose level is 0, a call of
    [Debugf] at a level that is not negative always reaches the writer,
    once, with the message formatted from the format and the operands, and
    goes on in the state the writer leaves unless the writer fails. *)
Theorem Debugf_writes_formatted_message {W} Sprintf LevelDebug (impl : log.LogWriter W)
        format args w :
  (0 <= LevelDebug)%Z ->
  log.Debugf Sprintf LevelDebug (log.newLogger impl) format args w
  = match log.Write impl LevelDebug (Sprintf format args) w with
    | (Some err, _) => Panic err
    | (None, w') => Ok w'
    end.
Proof.
  intros Hle. unfold log.Debugf, log.logf, log.write, log.newLogger. simpl.
  by destruct (Z.ltb_spec LevelDebug 0) as [Hlt|_]; [lia|].
Qed.

Lemma Debugf_writes_formatted_message_witness :
  log.Debugf sample_Sprintf 1 (log.newLogger (bounded_writer 80)) "x=%d" [VInt 7] []
  = match log.Write (bounded_writer 80) 1 (sample_Sprintf "x=%d" [VInt 7]) [] with
    | (Some err, _) => Panic err
    | (None, w') => Ok w'
    end.
Proof.
  apply (Debugf_writes_formatted_message sample_Sprintf 1%Z (bounded_writer 80)
           "x=%d" [VInt 7] []).
  lia.
Defined.

Example Debugf_sample :
  log.Debugf sample_Sprintf 1 (log.newLogger (bounded_writer 80)) "x=%d" [VInt 7] []
  = Ok [(1%Z, "x=%d!")].
Proof. reflexivity. Qed.

(** * The README generator *)

Lemma append_cons (c : Ascii.ascii) (a b : string) : String c a +:+ b = String c (a +:+ b).
Proof. reflexivity. Qed.

Lemma Split_cons (c : Ascii.ascii) (s : string) :
  readme.Split (String c s)
  = if decide (c = readme.newline) then "" :: readme.Split s
    else match readme.Split s with
         | line :: lines => String c line :: lines
         | [] => [String c ""]
         end.
Proof. reflexivity. Qed.

Lemma Split_line (a b : string) :
  newline_free a ->
  readme.Split (a +:+ String readme.newline b) = a :: readme.Split b.
Proof.
  induction a as [|c a IH]; intros Hfree.
  - change ("" +:+ String readme.newline b) with (String readme.newline b).
    rewrite Split_cons. by rewrite decide_True.
  - destruct Hfree as [Hc Hfree]. rewrite append_cons, Split_cons.
    rewrite decide_False by done. by rewrite IH.
Qed.

Lemma Split_newline_free (a : string) : newline_free a -> readme.Split a = [a].
Proof.
  induction a as [|c a IH]; intros Hfree; [done|].
  destruct Hfree as [Hc Hfree]. rewrite Split_cons, decide_False by done. by rewrite IH.
Qed.

(** Splitting what [Join] made gives the lines back. *)
Lemma Split_Join (lines : list string) :
  lines <> [] ->
  Forall newline_free lines ->
  readme.Split (readme.Join lines) = lines.
Proof.
  intros Hne Hall. induction Hall as [|line rest Hline Hrest IH]; [done|].
  destruct rest as [|line' rest].
  - simpl. by apply Split_newline_free.
  - change (readme.Join (line :: line' :: rest))
      with (line +:+ String readme.newline (readme.Join (line' :: rest))).
    rewrite Split_line by done. by rewrite IH.
Qed.

(** A text made of lines that each end in a line feed splits into these
    lines and a last, empty one. *)
Lemma Split_terminated (lines : list string) :
  Forall newline_free lines ->
  readme.Split (join (map (fun line => line +:+ String readme.newline "") lines))
  = lines ++ [""].
Proof.
  induction 1 as [|line rest Hline _ IH]; [done|].
  change (join (map (fun line => line +:+ String readme.newline "") (line :: rest)))
    with ((line +:+ String readme.newline "")
          +:+ join (map (fun line => line +:+ String readme.newline "") rest)).
  rewrite append_assoc.
  change (String readme.newline "" +:+ ?x) with (String readme.newline x).
  rewrite Split_line by done. by rewrite IH.
Qed.

Lemma brief_lines_paragraph (para rest : list string) (brief : string) :
  Forall (fun line => line <> "") para ->
  readme.brief_lines (para ++ "" :: rest) brief
  = brief +:+ join (map (fun line => line +:+ " ") para) /\
  readme.brief_lines para brief
  = brief +:+ join (map (fun line => line +:+ " ") para).
Proof.
  intros Hall. revert brief.
  induction Hall as [|line para Hline _ IH]; intros brief; simpl.
  - by rewrite append_nil_r.
  - destruct (decide (line = "")) as [?|_]; [done|].
    destruct (IH (brief +:+ (line +:+ " "))) as [-> ->].
    by rewrite append_assoc.
Qed.

(** X15: [BriefDoc] is the first paragraph of the doc on one line: the
    lines before the first empty line, each followed by a space; what
    comes after the empty line plays no part, and a doc without an empty
    line is taken whole. *)
Theorem BriefDoc_first_paragraph (para rest : list string) :
  Forall (fun line => line <> "" /\ newline_free line) para ->
  Forall newline_free rest ->
  readme.BriefDoc (with_doc (readme.Join (para ++ "" :: rest)))
  = join (map (fun line => line +:+ " ") para) /\
  (para <> [] ->
   readme.BriefDoc (with_doc (readme.Join para))
   = join (map (fun line => line +:+ " ") para)).
Proof.
  intros Hpara Hrest.
  assert (Hfree : Forall newline_free para).
  { eapply Forall_impl; [exact Hpara|]. by intros line [_ ?]. }
  assert (Hne : Forall (fun line => line <> "") para).
  { eapply Forall_impl; [exact Hpara|]. by intros line [? _]. }
  unfold readme.BriefDoc. simpl. split.
  - rewrite Split_Join.
    + by destruct (brief_lines_paragraph para rest "" Hne) as [-> _].
    + by destruct para.
    + apply Forall_app. split; [done|]. by constructor.
  - intros Hnil. rewrite Split_Join by done.
    by destruct (brief_lines_paragraph para rest "" Hne) as [_ ->].
Qed.

Lemma BriefDoc_first_paragraph_witness :
  readme.BriefDoc
    (with_doc (readme.Join (["Abs is a function"; "that does it."] ++ "" :: ["More text."])))
  = join (map (fun line => line +:+ " ") ["Abs is a function"; "that does it."]) /\
  (["Abs is a function"; "that does it."] <> [] ->
   readme.BriefDoc (with_doc (readme.Join ["Abs is a function"; "that does it."]))
   = join (map (fun line => line +:+ " ") ["Abs is a function"; "that does it."])).
Proof.
  apply (BriefDoc_first_paragraph ["Abs is a function"; "that does it."] ["More text."]).
  - repeat constructor; try discriminate; compute_done.
  - repeat constructor; compute_done.
Defined.

Example BriefDoc_sample :
  readme.BriefDoc
    (with_doc (readme.Join (["Abs is a function"; "that does it."] ++ "" :: ["More text."])))
  = "Abs is a function that does it. ".
Proof. reflexivity. Qed.

Lemma comment_doc_slashes (line doc : string) :
  readme.comment_doc doc ("// " +:+ line) = doc +:+ (line +:+ String readme.newline "").
Proof. reflexivity. Qed.

Lemma comment_docs (lines : list string) (doc : string) :
  fold_left readme.comment_doc (map (fun line => "// " +:+ line) lines) doc
  = doc +:+ join (map (fun line => line +:+ String readme.newline "") lines).
Proof.
  revert doc. induction lines as [|line lines IH]; intros doc; simpl.
  - by rewrite append_nil_r.
  - rewrite IH, comment_doc_slashes. by rewrite append_assoc.
Qed.

Lemma decls_doc_documented (lines : list string) :
  readme.decls_doc [documented lines]
  = join (map (fun line => line +:+ String readme.newline "") lines).
Proof. unfold readme.decls_doc, documented. simpl. by rewrite comment_docs. Qed.

Lemma code_nonempty (line : string) : code line -> line <> "".
Proof. by intros [Hpre _] ->. Qed.

Lemma fix_line_prose (acc : list string) (b : bool) (line : string) :
  prose line ->
  readme.fix_line (acc, b) line
  = if b then (acc ++ ["```"; line], false) else (acc ++ [line], false).
Proof.
  intros (Hne & Hpre & _). unfold readme.fix_line. cbn [fst snd].
  rewrite Hpre. by destruct (decide (line = "")).
Qed.

Lemma fix_line_code (acc : list string) (b : bool) (line : string) :
  code line ->
  readme.fix_line (acc, b) line
  = if b then (acc ++ [readme.string_drop 2 line], true)
    else (acc ++ ["```go"; readme.string_drop 2 line], true).
Proof.
  intros Hcode. pose proof (code_nonempty _ Hcode) as Hne.
  destruct Hcode as [Hpre _]. unfold readme.fix_line. cbn [fst snd].
  rewrite Hpre. by destruct (decide (line = "")).
Qed.

Lemma fix_line_empty (acc : list string) :
  readme.fix_line (acc, false) "" = (acc ++ [""; ""], false).
Proof.
  unfold readme.fix_line. cbn [fst snd].
  destruct (decide ("" = "")) as [_|Hne]; [|done]. simpl. by rewrite <- app_assoc.
Qed.

Lemma fix_prose_run (lines : list string) (acc : list string) :
  Forall prose lines ->
  fold_left readme.fix_line lines (acc, false) = (acc ++ lines, false).
Proof.
  intros Hall. revert acc.
  induction Hall as [|line lines Hline _ IH]; intros acc; cbn [fold_left].
  - by rewrite app_nil_r.
  - rewrite fix_line_prose, IH by done. by rewrite <- app_assoc.
Qed.

Lemma fix_code_run (lines : list string) (acc : list string) :
  Forall code lines ->
  fold_left readme.fix_line lines (acc, true)
  = (acc ++ map (readme.string_drop 2) lines, true).
Proof.
  intros Hall. revert acc.
  induction Hall as [|line lines Hline _ IH]; intros acc; cbn [fold_left].
  - by rewrite app_nil_r.
  - rewrite fix_line_code, IH by done. simpl. by rewrite <- app_assoc.
Qed.

(** X16: in the doc comment of a function, a run of lines indented by two
    spaces that stands between lines of prose comes out as a fenced Go
    block: the prose as it is, the opening fence, the run without its
    indentation, the closing fence, the prose after it, and two empty lines
    for the line feed that ends the comment. *)
Theorem getDoc_fences_code (before block after : list string) :
  Forall prose before ->
  Forall code block ->
  block <> [] ->
  Forall prose after ->
  after <> [] ->
  readme.getDoc [documented (before ++ block ++ after)]
  = readme.Join
      (before ++ "```go" :: map (readme.string_drop 2) block ++ "```" :: after ++ [""; ""]).
Proof.
  intros Hbefore Hblock Hb Hafter Ha.
  unfold readme.getDoc. rewrite decls_doc_documented, Split_terminated.
  - f_equal.
    rewrite <- !app_assoc, !fold_left_app.
    rewrite (fix_prose_run before []) by done.
    destruct block as [|line block]; [done|].
    apply Forall_cons in Hblock as [Hline Hblock].
    destruct after as [|line' after]; [done|].
    apply Forall_cons in Hafter as [Hline' Hafter].
    cbn [fold_left].
    rewrite (fix_line_code _ _ line), fix_code_run by done.
    rewrite (fix_line_prose _ _ line'), fix_prose_run by done.
    rewrite fix_line_empty. simpl. by rewrite <- !app_assoc.
  - rewrite !Forall_app. repeat split.
    + eapply Forall_impl; [exact Hbefore|]. by intros l (_ & _ & ?).
    + eapply Forall_impl; [exact Hblock|]. by intros l [_ ?].
    + eapply Forall_impl; [exact Hafter|]. by intros l (_ & _ & ?).
Qed.

Lemma getDoc_fences_code_witness :
  readme.getDoc
    [documented (["Abs returns the absolute value."]
                 ++ ["  x := Abs(-1)"; "  fmt.Println(x)"] ++ ["It never fails."])]
  = readme.Join
      (["Abs returns the absolute value."]
       ++ "```go" :: map (readme.string_drop 2) ["  x := Abs(-1)"; "  fmt.Println(x)"]
       ++ "```" :: ["It never fails."] ++ [""; ""]).
Proof.
  apply (getDoc_fences_code ["Abs returns the absolute value."]
           ["  x := Abs(-1)"; "  fmt.Println(x)"] ["It never fails."]).
  - repeat constructor; try discriminate; compute_done.
  - repeat constructor; compute_done.
  - discriminate.
  - repeat constructor; try discriminate; compute_done.
  - discriminate.
Defined.

(** X17: a doc comment of prose only, without empty or indented lines,
    comes out line by line as it is, followed by two empty lines: the line
    feed that ends the comment gives one empty line, which the loop adds
    twice. *)
Theorem getDoc_plain (lines : list string) :
  Forall prose lines ->
  readme.getDoc [documented lines] = readme.Join (lines ++ [""; ""]).
Proof.
  intros Hall. unfold readme.getDoc.
  rewrite decls_doc_documented, Split_terminated.
  - f_equal. rewrite fold_left_app, (fix_prose_run lines []) by done.
    cbn [fold_left]. by rewrite fix_line_empty.
  - eapply Forall_impl; [exact Hall|]. by intros l (_ & _ & ?).
Qed.

Lemma getDoc_plain_witness :
  readme.getDoc [documented ["Abs returns"; "the absolute value."]]
  = readme.Join (["Abs returns"; "the absolute value."] ++ [""; ""]).
Proof.
  apply (getDoc_plain ["Abs returns"; "the absolute value."]).
  repeat constructor; try discriminate; compute_done.
Defined.

(** X18: when the doc comment ends with the indented run, the block is
    closed only by the empty line that the final line feed gives, and that
    empty line is added before the closing fence: the fenced block ends in
    an empty line. *)
Theorem getDoc_block_at_end (before block : list string) :
  Forall prose before ->
  Forall code block ->
  block <> [] ->
  readme.getDoc [documented (before ++ block)]
  = readme.Join
      (before ++ "```go" :: map (readme.string_drop 2) block ++ [""; "```"; ""]).
Proof.
  intros Hbefore Hblock Hb.
  unfold readme.getDoc. rewrite decls_doc_documented, Split_terminated.
  - f_equal.
    rewrite <- !app_assoc, !fold_left_app.
    rewrite (fix_prose_run before []) by done.
    destruct block as [|line block]; [done|].
    apply Forall_cons in Hblock as [Hline Hblock].
    cbn [fold_left].
    rewrite (fix_line_code _ _ line), fix_code_run by done.
    unfold readme.fix_line. cbn [fst snd].
    destruct (decide ("" = "")) as [_|Hne]; [|done].
    simpl. by rewrite <- !app_assoc.
  - rewrite !Forall_app. split.
    + eapply Forall_impl; [exact Hbefore|]. by intros l (_ & _ & ?).
    + eapply Forall_impl; [exact Hblock|]. by intros l [_ ?].
Qed.

Lemma getDoc_block_at_end_witness :
  readme.getDoc [documented (["Abs returns the absolute value."] ++ ["  x := Abs(-1)"])]
  = readme.Join
      (["Abs returns the absolute value."]
       ++ "```go" :: map (readme.string_drop 2) ["  x := Abs(-1)"] ++ [""; "```"; ""]).
Proof.
  apply (getDoc_block_at_end ["Abs returns the absolute value."] ["  x := Abs(-1)"]).
  - repeat constructor; try discriminate; compute_done.
  - repeat constructor; compute_done.
  - discriminate.
Defined.
